(** * anago: preprocessors (src/anago/preprocess.py)

    A shallow embedding of [StaticPreprocessor], [DynamicPreprocessor] and
    [pad_nested_sequences], and the properties of the vocabulary and padding
    code that the specification states. *)

From Stdlib Require Import ZArith Lia.
From stdpp Require Import base numbers list option strings.

Local Open Scope Z_scope.

(** ** Python values *)

(** A Python [str] is a sequence of Unicode code points; iterating over it
    ([for c in w]) yields its code points one by one. *)
Abbreviation pystr := (list N).

(** The code points of an ASCII literal. *)
Definition py (s : string) : pystr :=
  Ascii.N_of_ascii <$> String.list_ascii_of_string s.

Definition UNK : pystr := Eval cbv in py "<UNK>".
Definition PAD : pystr := Eval cbv in py "<PAD>".

(** The exceptions the modelled code can raise. *)
Inductive exn := KeyError | TypeError | ValueError | IndexError.

Inductive result (A : Type) :=
  | Ok (a : A)
  | Raise (e : exn).
Arguments Ok {A} a.
Arguments Raise {A} e.

#[global] Instance result_ret : MRet result := @Ok.
#[global] Instance result_bind : MBind result := fun A B k r =>
  match r with
  | Ok a => k a
  | Raise e => Raise e
  end.

(** A list comprehension whose body may raise: elements are evaluated from
    left to right and the first exception aborts the comprehension. *)
Fixpoint traverse {A B} (f : A → result B) (l : list A) : result (list B) :=
  match l with
  | [] => Ok []
  | a :: l' => b ← f a ; bs ← traverse f l' ; Ok (b :: bs)
  end.

(** ** Python dictionaries

    A [dict] keeps its items in insertion order; assigning to a key that is
    present replaces the value in place, assigning to a new key appends an
    item.  [inverse_transform] iterates over [items()], so the order is part
    of the model. *)
Section dict.
Context {K V : Type} `{EqDecision K}.

Definition dict := list (K * V).

Fixpoint dict_get (d : dict) (k : K) : option V :=
  match d with
  | [] => None
  | (k', v) :: d' => if decide (k = k') then Some v else dict_get d' k
  end.

(** [d[k] = v] *)
Fixpoint dict_set (d : dict) (k : K) (v : V) : dict :=
  match d with
  | [] => [(k, v)]
  | (k', v') :: d' =>
      if decide (k = k') then (k', v) :: d' else (k', v') :: dict_set d' k v
  end.

(** [k in d] *)
Definition dict_mem (d : dict) (k : K) : bool :=
  bool_decide (is_Some (dict_get d k)).

(** [len(d)] *)
Definition dict_len (d : dict) : Z := Z.of_nat (length d).

(** [d.get(k, dflt)] *)
Definition dict_get_default (d : dict) (k : K) (dflt : V) : V :=
  default dflt (dict_get d k).

(** [d[k]], which raises [KeyError] for a missing key. *)
Definition dict_index (d : dict) (k : K) : result V :=
  match dict_get d k with
  | Some v => Ok v
  | None => Raise KeyError
  end.

Definition dict_keys (d : dict) : list K := d.*1.
Definition dict_items (d : dict) : list (K * V) := d.
End dict.
Arguments dict : clear implicits.

(** [{v: k for k, v in d.items()}]: a later item replaces an earlier one
    that has the same value. *)
Definition dict_invert {K V} `{EqDecision V} (d : dict K V) : dict V K :=
  fold_left (fun m '(k, v) => dict_set m v k) (dict_items d) [].

(** The ids of [d] are [0], [1], ... in the order in which the keys were
    inserted, and no key occurs twice. *)
Definition vocab_ok {K} (d : dict K Z) : Prop :=
  NoDup (dict_keys d) ∧ d.*2 = Z.of_nat <$> seq 0 (length d).

(** ** normalize_number *)

(** The character class [[0-9０１２３４５６７８９]]: the ASCII digits and the
    full-width digits U+FF10 .. U+FF19. *)
Definition is_digit (c : N) : bool :=
  ((48 <=? c)%N && (c <=? 57)%N) || ((65296 <=? c)%N && (c <=? 65305)%N).

Definition normalize_number (text : pystr) : pystr :=
  (fun c => if is_digit c then 48%N else c) <$> text.

(** ASCII case folding, the restriction of [str.lower] to ASCII text. *)
Definition ascii_lower (w : pystr) : pystr :=
  (fun c => if (65 <=? c)%N && (c <=? 90)%N then (c + 32)%N else c) <$> w.

Definition is_ascii (w : pystr) : Prop := Forall (fun c => (c < 128)%N) w.

(** Iterating over a [set] visits each element once, in an order that the
    interpreter chooses: the first occurrences, in order, are one such order. *)
Definition first_seen_order (l : list pystr) : list pystr := remove_dups l.

(** ** StaticPreprocessor *)

Record StaticPreprocessor := mkStatic {
  _lowercase : bool;
  _num_norm : bool;
  _char_feature : bool;
  _vocab_init : list pystr;
  word_dic : dict pystr Z;
  char_dic : dict pystr Z;
  label_dic : dict pystr Z
}.

(** [__init__] *)
Definition init (lowercase num_norm char_feature : bool)
    (vocab_init : list pystr) : StaticPreprocessor :=
  {| _lowercase := lowercase; _num_norm := num_norm;
     _char_feature := char_feature; _vocab_init := vocab_init;
     word_dic := [(PAD, 0); (UNK, 1)];
     char_dic := [(PAD, 0); (UNK, 1)];
     label_dic := [(PAD, 0)] |}.

Definition set_word_dic (self : StaticPreprocessor) (d : dict pystr Z) :=
  {| _lowercase := _lowercase self; _num_norm := _num_norm self;
     _char_feature := _char_feature self; _vocab_init := _vocab_init self;
     word_dic := d; char_dic := char_dic self; label_dic := label_dic self |}.

Definition set_char_dic (self : StaticPreprocessor) (d : dict pystr Z) :=
  {| _lowercase := _lowercase self; _num_norm := _num_norm self;
     _char_feature := _char_feature self; _vocab_init := _vocab_init self;
     word_dic := word_dic self; char_dic := d; label_dic := label_dic self |}.

Definition set_label_dic (self : StaticPreprocessor) (d : dict pystr Z) :=
  {| _lowercase := _lowercase self; _num_norm := _num_norm self;
     _char_feature := _char_feature self; _vocab_init := _vocab_init self;
     word_dic := word_dic self; char_dic := char_dic self; label_dic := d |}.

(** The arrays [transform] returns: word ids per sentence, or character ids
    per word per sentence. *)
Inductive encoded :=
  | EWords (words : list (list Z))
  | EChars (chars : list (list (list Z))).

(** [transform] returns [inputs] alone, or the pair [(inputs, y)]. *)
Inductive transformed :=
  | Inputs (inputs : list encoded)
  | InputsLabels (inputs : list encoded) (y : list (list Z)).

(** A method of the preprocessor: it reads and updates the object and either
    returns a value or raises. *)
Definition M (A : Type) := StaticPreprocessor → result A * StaticPreprocessor.

Definition bindM {A B} (m : M A) (k : A → M B) : M B :=
  fun self =>
    match m self with
    | (Ok a, self') => k a self'
    | (Raise e, self') => (Raise e, self')
    end.
Definition lift {A} (r : result A) : M A := fun self => (r, self).

Section Static.
(** [str.lower] and the iteration order of a [set] belong to the
    interpreter, not to the repository. *)
Variable str_lower : pystr → pystr.
Variable set_iter : list pystr → list pystr.

(** What is known of [set_iter]: each element of the set exactly once. *)
Definition set_iter_ok : Prop :=
  ∀ l, NoDup (set_iter l) ∧ ∀ x, x ∈ set_iter l ↔ x ∈ l.

(** What is known of [str_lower] on ASCII text. *)
Definition str_lower_ok : Prop :=
  ∀ w, is_ascii w → str_lower w = ascii_lower w.

(** Lines 46-49 and 68-71: the word as it is looked up and stored. *)
Definition normalize (self : StaticPreprocessor) (w : pystr) : pystr :=
  let w := if _lowercase self then str_lower w else w in
  if _num_norm self then normalize_number w else w.

(** Lines 40-43. *)
Definition fit_chars (w : pystr) (cd : dict pystr Z) : dict pystr Z :=
  fold_left
    (fun cd c => if dict_mem cd [c] then cd else dict_set cd [c] (dict_len cd))
    w cd.

(** Lines 38-50: the body of the loop over the words. *)
Definition fit_word (self : StaticPreprocessor) (w : pystr) :=
  let self :=
    if _char_feature self
    then set_char_dic self (fit_chars w (char_dic self))
    else self in
  let w := normalize self w in
  set_word_dic self (dict_set (word_dic self) w (dict_len (word_dic self))).

(** Line 54. *)
Definition fit_label (self : StaticPreprocessor) (t : pystr) :=
  set_label_dic self (dict_set (label_dic self) t (dict_len (label_dic self))).

Definition fit_words (ws : list pystr) (self : StaticPreprocessor) :=
  fold_left fit_word ws self.

Definition fit_labels (ts : list pystr) (self : StaticPreprocessor) :=
  fold_left fit_label ts self.

(** [fit]: [itertools.chain( *y)] raises [TypeError] when [y] is [None],
    after the word and character dictionaries have been filled.  The
    method returns [self]. *)
Definition fit (X : list (list pystr)) (y : option (list (list pystr)))
    : M StaticPreprocessor :=
  fun self =>
    let self := fit_words (set_iter (concat X ++ _vocab_init self)) self in
    match y with
    | None => (Raise TypeError, self)
    | Some y =>
        let self := fit_labels (set_iter (concat y)) self in
        (Ok self, self)
    end.

(** [_get_char_ids] *)
Definition _get_char_ids (self : StaticPreprocessor) (word : pystr)
    : result (list Z) :=
  traverse
    (fun c => unk ← dict_index (char_dic self) UNK ;
              Ok (dict_get_default (char_dic self) [c] unk))
    word.

(** Lines 68-72. *)
Definition word_id (self : StaticPreprocessor) (w : pystr) : result Z :=
  let w := normalize self w in
  unk ← dict_index (word_dic self) UNK ;
  Ok (dict_get_default (word_dic self) w unk).

(** Lines 64-73: one word; the character ids are appended only when
    [_char_feature] is set. *)
Definition transform_word (self : StaticPreprocessor) (w : pystr)
    : result (Z * option (list Z)) :=
  cs ← (if _char_feature self
        then c ← _get_char_ids self w ; Ok (Some c)
        else Ok None) ;
  i ← word_id self w ;
  Ok (i, cs).

(** Lines 62-76: one sentence, its [word_ids] and [char_ids]. *)
Definition transform_sent (self : StaticPreprocessor) (sent : list pystr)
    : result (list Z * list (list Z)) :=
  ps ← traverse (transform_word self) sent ;
  Ok (ps.*1, omap id ps.*2).

(** [transform] as a function of the object, which it only reads.
    [np.array] of a nested list is kept as the nested list. *)
Definition transform_of (self : StaticPreprocessor)
    (X : list (list pystr)) (y : option (list (list pystr)))
    : result transformed :=
  ps ← traverse (transform_sent self) X ;
  let words := ps.*1 in
  let chars := ps.*2 in
  let inputs :=
    if _char_feature self then [EWords words; EChars chars]
    else [EWords words] in
  match y with
  | Some y =>
      y ← traverse (traverse (dict_index (label_dic self))) y ;
      Ok (InputsLabels inputs y)
  | None => Ok (Inputs inputs)
  end.

Definition transform (X : list (list pystr))
    (y : option (list (list pystr))) : M transformed :=
  fun self => (transform_of self X y, self).

(** [fit_transform]: [self.fit(X, y).transform(X, y)], the second call
    being made on the object that [fit] returned. *)
Definition fit_transform (X : list (list pystr))
    (y : option (list (list pystr))) : M transformed :=
  bindM (fit X y) (fun fitted => lift (transform_of fitted X y)).

(** Line 93. *)
Definition id2label (self : StaticPreprocessor) : dict Z pystr :=
  dict_invert (label_dic self).

(** [inverse_transform] *)
Definition inverse_transform (self : StaticPreprocessor)
    (docs : list (list Z)) : result (list (list pystr)) :=
  traverse (traverse (dict_index (id2label self))) docs.
End Static.

(** ** pad_nested_sequences *)

(** The value an [int32] array cell holds after the integer [z] is stored
    in it: numpy converts the assigned list with a C cast, which wraps. *)
Definition int32 (z : Z) : Z := (z + 2 ^ 31) `mod` 2 ^ 32 - 2 ^ 31.

(** A three-dimensional numpy array: its shape, and its cells as nested
    rows.  The shape is kept apart because an array with an empty axis has
    no cell to read the other axes from. *)
Record ndarray3 := mkArray3 {
  shape3 : nat * nat * nat;
  data3 : list (list (list Z))
}.

(** [np.zeros((n, m, k)).astype('int32')] *)
Definition np_zeros3 (n m k : nat) : ndarray3 :=
  {| shape3 := (n, m, k);
     data3 := replicate n (replicate m (replicate k 0)) |}.

(** The row [r] after [r[:len(word)] = word]. *)
Definition set_prefix (word row : list Z) : list Z :=
  (int32 <$> word) ++ drop (length word) row.

(** [x[i, j, :len(word)] = word].  The slice is as long as [word] because
    [len(word) <= maxlen_word] for every word of the batch
    (lemma [word_length_le_maxlen]). *)
Definition setitem3 (x : ndarray3) (i j : nat) (word : list Z) : ndarray3 :=
  {| shape3 := shape3 x;
     data3 := alter (alter (set_prefix word) j) i (data3 x) |}.

Fixpoint enumerate_from {A} (n : nat) (l : list A) : list (nat * A) :=
  match l with
  | [] => []
  | a :: l' => (n, a) :: enumerate_from (S n) l'
  end.

(** [enumerate(l)] *)
Definition enumerate {A} (l : list A) : list (nat * A) := enumerate_from 0 l.

(** Lines 150-155. *)
Definition maxlens (sequences : list (list (list Z))) : nat * nat :=
  fold_left
    (fun '(maxlen_sent, maxlen_word) sent =>
       ((length sent `max` maxlen_sent)%nat,
        fold_left (fun maxlen_word word => (length word `max` maxlen_word)%nat)
          sent maxlen_word))
    sequences (0%nat, 0%nat).

Definition pad_nested_sequences (sequences : list (list (list Z))) : ndarray3 :=
  let '(maxlen_sent, maxlen_word) := maxlens sequences in
  let x := np_zeros3 (length sequences) maxlen_sent maxlen_word in
  fold_left
    (fun x '(i, sent) =>
       fold_left (fun x '(j, word) => setitem3 x i j word) (enumerate sent) x)
    (enumerate sequences) x.

(** The rows of one sentence after the inner loop (lines 159-160). *)
Definition fill_words (sent : list (list Z)) (rows : list (list Z))
    : list (list Z) :=
  fold_left (fun rows '(j, word) => alter (set_prefix word) j rows)
    (enumerate sent) rows.

(** [x[i, j, k]] *)
Definition get3 (x : ndarray3) (i j k : nat) : option Z :=
  row ← data3 x !! i; cell ← row !! j; cell !! k.

(** The cells of [x] agree with its shape. *)
Definition well_shaped (x : ndarray3) : Prop :=
  let '(n, m, k) := shape3 x in
  length (data3 x) = n ∧
  Forall (fun row => length row = m ∧ Forall (fun cell => length cell = k) row)
    (data3 x).

(** ** DynamicPreprocessor *)

(** Modelled from the spec: [keras.preprocessing.sequence.pad_sequences]
    with [padding='post'] is a library function, absent from the
    repository.  It pads each sequence on the right with [0] to the length of
    the longest sequence of the batch. *)
Definition pad_sequences (sequences : list (list Z)) : list (list Z) :=
  let maxlen := max_list (length <$> sequences) in
  (fun s => s ++ replicate (maxlen - length s) 0) <$> sequences.

(** Modelled from the spec: the one-hot vector of width [num_classes] for the
    id [k], a [1] at position [k] and [0] elsewhere.  An id with no position
    in the vector is an [IndexError]. *)
Definition one_hot (num_classes : nat) (k : Z) : result (list Z) :=
  if decide (0 ≤ k < Z.of_nat num_classes)
  then Ok (<[Z.to_nat k := 1]> (replicate num_classes 0))
  else Raise IndexError.

(** Modelled from the spec: [keras.utils.np_utils.to_categorical], a library
    function absent from the repository, expands each id of the padded batch
    to its one-hot vector. *)
Definition to_categorical (y : list (list Z)) (num_classes : nat)
    : result (list (list (list Z))) :=
  traverse (traverse (one_hot num_classes)) y.

Module Dynamic.
Record DynamicPreprocessor := mk { n_labels : nat }.

(** [transform] returns [sents] alone, or the pair [(sents, y)]. *)
Inductive padded :=
  | Sents (words : list (list Z)) (chars : ndarray3)
  | SentsLabels (words : list (list Z)) (chars : ndarray3)
      (y : list (list (list Z))).

(** The argument of [pad_sequences]: a batch of flat sequences. *)
Definition as_words (e : encoded) : result (list (list Z)) :=
  match e with
  | EWords ws => Ok ws
  | EChars _ => Raise ValueError
  end.

(** The argument of [pad_nested_sequences]: a batch of nested sequences;
    [len(word)] of an integer is a [TypeError]. *)
Definition as_chars (e : encoded) : result (list (list (list Z))) :=
  match e with
  | EChars cs => Ok cs
  | EWords _ => Raise TypeError
  end.

(** [transform]: [words, chars = X] unpacks exactly two values and raises
    [ValueError] for any other number of them. *)
Definition transform (self : DynamicPreprocessor) (X : list encoded)
    (y : option (list (list Z))) : result padded :=
  match X with
  | [words; chars] =>
      words ← as_words words;
      let words := pad_sequences words in
      chars ← as_chars chars;
      let chars := pad_nested_sequences chars in
      match y with
      | Some y =>
          let y := pad_sequences y in
          y ← to_categorical y (n_labels self);
          Ok (SentsLabels words chars y)
      | None => Ok (Sents words chars)
      end
  | _ => Raise ValueError
  end.
End Dynamic.

(** The two stages in sequence: [StaticPreprocessor.transform] without
    labels, its result handed to [DynamicPreprocessor.transform]. *)
Definition pipeline (str_lower : pystr → pystr) (p : StaticPreprocessor)
    (dp : Dynamic.DynamicPreprocessor) (X : list (list pystr))
    : result Dynamic.padded :=
  r ← transform_of str_lower p X None;
  match r with
  | Inputs inputs => Dynamic.transform dp inputs None
  | InputsLabels inputs y => Dynamic.transform dp inputs (Some y)
  end.

(** The vector [v] is the one-hot vector of width [n] for the id [k]: a [1]
    at position [k], [0] at every other position, hence exactly one [1]. *)
Definition one_hot_at (n : nat) (k : Z) (v : list Z) : Prop :=
  length v = n ∧
  v !! Z.to_nat k = Some 1 ∧
  (∀ p, (p < n)%nat → p ≠ Z.to_nat k → v !! p = Some 0) ∧
  length (filter (fun z => z = 1) v) = 1%nat.

(** The label round trip: [fit], then [transform] with the label corpus,
    then [inverse_transform] of the label ids [transform] returned. *)
Definition label_round_trip (str_lower : pystr → pystr)
    (set_iter : list pystr → list pystr) (p : StaticPreprocessor)
    (X L : list (list pystr)) : result (list (list pystr)) :=
  match fit str_lower set_iter X (Some L) p with
  | (Ok p, _) =>
      r ← transform_of str_lower p X (Some L);
      match r with
      | InputsLabels _ ids => inverse_transform p ids
      | Inputs _ => Ok []
      end
  | (Raise e, _) => Raise e
  end.

(** [fit] and [transform] called one after the other on the same object, the
    value [fit] returns being dropped. *)
Definition fit_then_transform (str_lower : pystr → pystr)
    (set_iter : list pystr → list pystr) (X : list (list pystr))
    (y : option (list (list pystr))) : M transformed :=
  bindM (fit str_lower set_iter X y) (fun _ => transform str_lower X y).

(** The reserved entries that the lookups with a fallback read. *)
Definition has_unk (p : StaticPreprocessor) : Prop :=
  is_Some (dict_get (word_dic p) UNK) ∧ is_Some (dict_get (char_dic p) UNK).

(** * Properties *)

(** ** Comprehensions *)

Lemma traverse_Ok {A B} (f : A → result B) (g : A → B) (l : list A) :
  (∀ a, a ∈ l → f a = Ok (g a)) → traverse f l = Ok (g <$> l).
Proof.
  induction l as [|a l IH]; intros Hf; [done|].
  cbn. rewrite (Hf a) by left. cbn.
  rewrite IH; [done|]. intros b Hb. apply Hf. by right.
Qed.

Lemma traverse_Raise {A B} (f : A → result B) (l : list A) a e :
  a ∈ l → f a = Raise e → (∀ b e', b ∈ l → f b = Raise e' → e' = e) →
  traverse f l = Raise e.
Proof.
  induction l as [|b l IH]; intros Ha Hfa Hall; [by apply elem_of_nil in Ha|].
  cbn. destruct (f b) as [v|e'] eqn:Hb; cbn.
  - apply elem_of_cons in Ha as [->|Ha]; [congruence|].
    rewrite IH; [done..|]. intros c e'' Hc. apply Hall. by right.
  - f_equal. apply (Hall b); [by left|done].
Qed.

Lemma traverse_length {A B} (f : A → result B) (l : list A) bs :
  traverse f l = Ok bs → length bs = length l.
Proof.
  revert bs. induction l as [|a l IH]; intros bs; cbn.
  - by intros [= <-].
  - destruct (f a); cbn; [|done]. destruct (traverse f l); cbn; [|done].
    intros [= <-]. cbn. f_equal. by apply IH.
Qed.

(** ** Dictionaries *)

Section dict_lemmas.
Context {K V : Type} `{EqDecision K}.
Implicit Types (d : dict K V) (k : K) (v : V).

Lemma dict_get_set_eq d k v : dict_get (dict_set d k v) k = Some v.
Proof.
  induction d as [|[k' v'] d IH]; cbn.
  - by rewrite decide_True.
  - destruct (decide (k = k')) as [->|Hne]; cbn.
    + by rewrite decide_True.
    + by rewrite decide_False.
Qed.

Lemma dict_get_set_ne d k k' v :
  k ≠ k' → dict_get (dict_set d k v) k' = dict_get d k'.
Proof.
  intros Hne. induction d as [|[k0 v0] d IH]; cbn.
  - by rewrite decide_False.
  - destruct (decide (k = k0)) as [->|Hne0]; cbn.
    + by rewrite !decide_False.
    + by rewrite IH.
Qed.

Lemma dict_set_length_present d k v :
  is_Some (dict_get d k) → length (dict_set d k v) = length d.
Proof.
  induction d as [|[k0 v0] d IH]; cbn.
  - by intros [? ?].
  - destruct (decide (k = k0)); cbn; [done|]. intros Hk. by rewrite IH.
Qed.

Lemma dict_set_length_absent d k v :
  dict_get d k = None → length (dict_set d k v) = S (length d).
Proof.
  induction d as [|[k0 v0] d IH]; cbn; [done|].
  destruct (decide (k = k0)); cbn; [done|]. intros Hk. by rewrite IH.
Qed.

Lemma dict_get_set_is_Some d k k' v :
  is_Some (dict_get d k') → is_Some (dict_get (dict_set d k v) k').
Proof.
  intros Hk'. destruct (decide (k = k')) as [->|Hne].
  - rewrite dict_get_set_eq. by eexists.
  - by rewrite dict_get_set_ne.
Qed.

Lemma dict_mem_true d k : dict_mem d k = true ↔ is_Some (dict_get d k).
Proof. unfold dict_mem. by rewrite bool_decide_eq_true. Qed.

Lemma dict_mem_false d k : dict_mem d k = false ↔ dict_get d k = None.
Proof.
  unfold dict_mem. rewrite bool_decide_eq_false.
  by rewrite <-eq_None_not_Some.
Qed.
End dict_lemmas.

(** ** StaticPreprocessor: what [fit] preserves *)

Section StaticProps.
Variable str_lower : pystr → pystr.
Variable set_iter : list pystr → list pystr.

(** The character loop skips a character that has an id already, so an id
    of the character dictionary is never replaced. *)
Lemma fit_chars_keeps w (cd : dict pystr Z) k i :
  dict_get cd k = Some i → dict_get (fit_chars w cd) k = Some i.
Proof.
  unfold fit_chars. revert cd.
  induction w as [|c w IH]; intros cd Hk; cbn.
  { done. }
  apply IH. destruct (dict_mem cd [c]) eqn:Hmem; [done|].
  apply dict_mem_false in Hmem.
  rewrite dict_get_set_ne; [done|]. intros <-. congruence.
Qed.

Lemma fit_word_has_unk p w : has_unk p → has_unk (fit_word str_lower p w).
Proof.
  intros [Hw Hc]. unfold fit_word, has_unk.
  destruct (_char_feature p); cbn.
  - split; [by apply dict_get_set_is_Some|].
    destruct Hc as [i Hi]. exists i. by apply fit_chars_keeps.
  - split; [by apply dict_get_set_is_Some|done].
Qed.

Lemma fit_words_has_unk ws p : has_unk p → has_unk (fit_words str_lower ws p).
Proof.
  unfold fit_words. revert p.
  induction ws as [|w ws IH]; intros p Hp; cbn; [done|].
  by apply IH, fit_word_has_unk.
Qed.

Lemma fit_labels_has_unk ts p : has_unk p → has_unk (fit_labels ts p).
Proof.
  unfold fit_labels. revert p.
  induction ts as [|t ts IH]; intros p Hp; cbn; [done|].
  by apply IH.
Qed.

Lemma init_has_unk lc nn cf vi : has_unk (init lc nn cf vi).
Proof. split; cbn; by eexists. Qed.

Lemma fit_has_unk X y p :
  has_unk p → has_unk (fit str_lower set_iter X y p).2.
Proof.
  intros Hp. unfold fit. destruct y as [y|]; cbn.
  - by apply fit_labels_has_unk, fit_words_has_unk.
  - by apply fit_words_has_unk.
Qed.

(** [fit] returns the object it was called on, as it has become. *)
Lemma fit_returns_self X y p p' :
  (fit str_lower set_iter X y p).1 = Ok p' →
  p' = (fit str_lower set_iter X y p).2.
Proof. unfold fit. destruct y; cbn; congruence. Qed.

Lemma fit_word_char_feature p w :
  _char_feature (fit_word str_lower p w) = _char_feature p.
Proof. unfold fit_word. by destruct (_char_feature p) eqn:E. Qed.

Lemma fit_words_char_feature ws p :
  _char_feature (fit_words str_lower ws p) = _char_feature p.
Proof.
  unfold fit_words. revert p.
  induction ws as [|w ws IH]; intros p; cbn; [done|].
  by rewrite IH, fit_word_char_feature.
Qed.

Lemma fit_labels_char_feature ts p :
  _char_feature (fit_labels ts p) = _char_feature p.
Proof.
  unfold fit_labels. revert p.
  induction ts as [|t ts IH]; intros p; cbn; [done|].
  by rewrite IH.
Qed.

(** ** StaticPreprocessor: lookups with a fallback do not raise *)

Lemma word_id_Ok p w :
  has_unk p →
  ∃ unk, dict_get (word_dic p) UNK = Some unk ∧
         word_id str_lower p w =
           Ok (dict_get_default (word_dic p) (normalize str_lower p w) unk).
Proof.
  intros [[unk Hunk] _]. exists unk. split; [done|].
  unfold word_id, dict_index. by rewrite Hunk.
Qed.

Lemma get_char_ids_Ok p w :
  has_unk p →
  ∃ unk, dict_get (char_dic p) UNK = Some unk ∧
         _get_char_ids p w =
           Ok ((fun c => dict_get_default (char_dic p) [c] unk) <$> w).
Proof.
  intros [_ [unk Hunk]]. exists unk. split; [done|].
  unfold _get_char_ids. apply traverse_Ok. intros c _.
  unfold dict_index. by rewrite Hunk.
Qed.

Lemma transform_word_Ok p w :
  has_unk p → ∃ r, transform_word str_lower p w = Ok r.
Proof.
  intros Hp. unfold transform_word.
  destruct (word_id_Ok p w Hp) as (unk & _ & ->).
  destruct (get_char_ids_Ok p w Hp) as (cunk & _ & ->).
  destruct (_char_feature p); cbn; by eexists.
Qed.

Lemma traverse_total {A B} (f : A → result B) (l : list A) :
  (∀ a, ∃ b, f a = Ok b) → ∃ bs, traverse f l = Ok bs.
Proof.
  intros Hf. induction l as [|a l [bs IH]]; cbn; [by eexists|].
  destruct (Hf a) as [b ->]. rewrite IH. cbn. by eexists.
Qed.

Lemma transform_sents_Ok p X :
  has_unk p → ∃ ps, traverse (transform_sent str_lower p) X = Ok ps.
Proof.
  intros Hp. apply traverse_total. intros sent. unfold transform_sent.
  destruct (traverse_total (transform_word str_lower p) sent) as [ps ->].
  - intros w. by apply transform_word_Ok.
  - cbn. by eexists.
Qed.
End StaticProps.

(** ** The interpreter's choices used in the examples *)

Lemma first_seen_order_ok : set_iter_ok first_seen_order.
Proof.
  intros l. split; [apply NoDup_remove_dups|].
  intros x. apply elem_of_remove_dups.
Qed.

Lemma ascii_lower_ok : str_lower_ok ascii_lower.
Proof. by intros w _. Qed.

Lemma traverse_Raise_inv {A B} (f : A → result B) (l : list A) e :
  traverse f l = Raise e → ∃ a, a ∈ l ∧ f a = Raise e.
Proof.
  induction l as [|a l IH]; cbn; [done|].
  destruct (f a) as [b|e'] eqn:Ha; cbn.
  - destruct (traverse f l) as [bs|e'] eqn:Hl; cbn; [done|].
    intros [= ->]. destruct IH as (a' & Hin & Ha'); [done|].
    exists a'. split; [by right|done].
  - intros [= ->]. exists a. split; [by left|done].
Qed.

Lemma dict_index_Raise {K V} `{EqDecision K} (d : dict K V) k e :
  dict_index d k = Raise e → e = KeyError ∧ dict_get d k = None.
Proof.
  unfold dict_index. destruct (dict_get d k); [done|]. by intros [= <-].
Qed.

(** A nested comprehension of dictionary lookups raises [KeyError] as soon
    as one key is missing. *)
Lemma traverse_index_Raise {K V} `{EqDecision K} (d : dict K V)
    (y : list (list K)) sent t :
  sent ∈ y → t ∈ sent → dict_get d t = None →
  traverse (traverse (dict_index d)) y = Raise KeyError.
Proof.
  intros Hsent Ht Hnone.
  assert (Hkey : ∀ s e, traverse (dict_index d) s = Raise e → e = KeyError).
  { intros s e Hs. apply traverse_Raise_inv in Hs as (k & _ & Hk).
    by apply dict_index_Raise in Hk as [-> _]. }
  apply (traverse_Raise _ _ sent); [done| |].
  - apply (traverse_Raise _ _ t); [done| |].
    + unfold dict_index. by rewrite Hnone.
    + intros k e _ Hk. by apply dict_index_Raise in Hk as [-> _].
  - intros s e _ Hs. by apply (Hkey s).
Qed.

Lemma traverse_index_Ok {K V} `{EqDecision K} (d : dict K V)
    (y : list (list K)) (dflt : V) :
  (∀ sent t, sent ∈ y → t ∈ sent → is_Some (dict_get d t)) →
  traverse (traverse (dict_index d)) y =
    Ok ((fun sent : list K =>
           (fun t => default dflt (dict_get d t)) <$> sent) <$> y).
Proof.
  intros Hall. apply traverse_Ok. intros sent Hsent.
  apply traverse_Ok. intros t Ht.
  destruct (Hall sent t Hsent Ht) as [v Hv].
  unfold dict_index. by rewrite Hv.
Qed.

(** ** Dictionaries whose ids are assigned in order *)

Section vocab.
Context {K : Type} `{EqDecision K}.
Implicit Types (d : dict K Z) (k : K).

Lemma dict_get_None_keys d k : dict_get d k = None ↔ k ∉ dict_keys d.
Proof.
  unfold dict_keys. induction d as [|[k' v'] d IH]; cbn.
  - split; [intros _; apply not_elem_of_nil|done].
  - rewrite not_elem_of_cons. destruct (decide (k = k')) as [->|Hne].
    + split; [done|]. by intros [? _].
    + rewrite IH. split; [by intros ?|by intros [_ ?]].
Qed.

Lemma dict_get_Some_elem d k v : dict_get d k = Some v → (k, v) ∈ d.
Proof.
  induction d as [|[k' v'] d IH]; cbn; [done|].
  destruct (decide (k = k')) as [->|].
  - intros [= ->]. by left.
  - intros Hk. right. by apply IH.
Qed.

Lemma dict_set_absent d k v :
  dict_get d k = None → dict_set d k v = d ++ [(k, v)].
Proof.
  induction d as [|[k' v'] d IH]; cbn; [done|].
  destruct (decide (k = k')); [done|]. intros Hk. by rewrite IH.
Qed.

(** Assigning [len(d)] to a key that is not in [d] keeps the ids in
    order. *)
Lemma vocab_ok_add d k :
  vocab_ok d → dict_get d k = None → vocab_ok (dict_set d k (dict_len d)).
Proof.
  intros [Hkeys Hids] Hk. rewrite dict_set_absent by done.
  unfold vocab_ok, dict_keys, dict_len. rewrite !fmap_app, length_app. cbn.
  split.
  - apply NoDup_app. split; [done|]. split; [|apply NoDup_singleton].
    intros k' Hk' ->%list_elem_of_singleton.
    by apply dict_get_None_keys in Hk.
  - rewrite Nat.add_1_r, seq_S, fmap_app. cbn. by rewrite Hids.
Qed.

Lemma vocab_ok_ids_NoDup d : vocab_ok d → NoDup d.*2.
Proof.
  intros [_ ->]. apply NoDup_fmap; [apply _|apply NoDup_seq].
Qed.

(** The ids of such a dictionary are below its length: the next id is
    new. *)
Lemma vocab_ok_id_lt d k v :
  vocab_ok d → dict_get d k = Some v → 0 ≤ v < dict_len d.
Proof.
  intros [_ Hids] Hk. apply dict_get_Some_elem in Hk.
  assert (Hv : v ∈ d.*2).
  { apply list_elem_of_fmap. by exists (k, v). }
  rewrite Hids in Hv. apply list_elem_of_fmap in Hv as (n & -> & Hn).
  apply elem_of_seq in Hn. unfold dict_len. lia.
Qed.

Lemma dict_invert_fold_other (E : list (K * Z)) (m : dict Z K) v :
  v ∉ E.*2 →
  dict_get (fold_left (fun m '(k, v) => dict_set m v k) E m) v = dict_get m v.
Proof.
  revert m. induction E as [|[k' v'] E IH]; intros m Hv; cbn; [done|].
  cbn in Hv. apply not_elem_of_cons in Hv as [Hne Hv].
  rewrite IH by done. by rewrite dict_get_set_ne.
Qed.

(** When no id is used twice, the inverted dictionary maps the id of a key
    back to the key. *)
Lemma dict_invert_get d k v :
  NoDup d.*2 → (k, v) ∈ d → dict_get (dict_invert d) v = Some k.
Proof.
  unfold dict_invert, dict_items. generalize (@nil (Z * K)).
  induction d as [|[k' v'] d IH]; intros m Hnd Hin; cbn.
  - by apply elem_of_nil in Hin.
  - cbn in Hnd. apply NoDup_cons in Hnd as [Hv' Hnd].
    apply elem_of_cons in Hin as [[= -> ->]|Hin].
    + rewrite dict_invert_fold_other by done. apply dict_get_set_eq.
    + by apply IH.
Qed.

Lemma traverse_fmap {A B C} (f : B → result C) (g : A → B) (l : list A) :
  traverse f (g <$> l) = traverse (fun a => f (g a)) l.
Proof. induction l as [|a l IH]; cbn; [done|]. by rewrite IH. Qed.

Lemma traverse_Ok_id {A} (f : A → result A) (l : list A) :
  (∀ a, a ∈ l → f a = Ok a) → traverse f l = Ok l.
Proof.
  intros Hf. rewrite (traverse_Ok f id) by done. by rewrite list_fmap_id.
Qed.

(** Looking every key up and every id back up returns the keys. *)
Lemma dict_round_trip d (L : list (list K)) :
  NoDup d.*2 →
  (∀ sent t, sent ∈ L → t ∈ sent → is_Some (dict_get d t)) →
  ∃ ids,
    traverse (traverse (dict_index d)) L = Ok ids ∧
    traverse (traverse (dict_index (dict_invert d))) ids = Ok L.
Proof.
  intros Hnd Hall. eexists. split; [by apply (traverse_index_Ok _ _ 0)|].
  rewrite traverse_fmap. apply traverse_Ok_id. intros sent Hsent.
  rewrite traverse_fmap. apply traverse_Ok_id. intros t Ht.
  destruct (Hall sent t Hsent Ht) as [v Hv]. rewrite Hv. cbn.
  unfold dict_index.
  by rewrite (dict_invert_get d t v Hnd (dict_get_Some_elem _ _ _ Hv)).
Qed.
End vocab.

Section StaticClaims.
Variable str_lower : pystr → pystr.
Variable set_iter : list pystr → list pystr.

(** C6: for every fitted preprocessor, [transform] given a label corpus
    in which some label has no entry in the label dictionary raises
    [KeyError], no fallback id being substituted; given a label corpus
    whose labels all have an entry it does not raise and returns the id
    of each label at its position. *)
Theorem transform_labels_strict lc nn cf vi X0 y0 X
    (y : list (list pystr)) :
  let p := (fit str_lower set_iter X0 (Some y0) (init lc nn cf vi)).2 in
  ((∃ sent t, sent ∈ y ∧ t ∈ sent ∧ dict_get (label_dic p) t = None) →
     transform_of str_lower p X (Some y) = Raise KeyError) ∧
  ((∀ sent t, sent ∈ y → t ∈ sent → is_Some (dict_get (label_dic p) t)) →
     ∃ inputs,
       transform_of str_lower p X (Some y) =
         Ok (InputsLabels inputs
               ((fun sent : list pystr =>
                   (fun t => default 0 (dict_get (label_dic p) t)) <$> sent)
                  <$> y))).
Proof.
  intros p.
  assert (Hp : has_unk p) by apply fit_has_unk, init_has_unk.
  destruct (transform_sents_Ok str_lower p X Hp) as [ps Hps].
  unfold transform_of. rewrite Hps. cbn. split.
  - intros (sent & t & Hsent & Ht & Hnone).
    by rewrite (traverse_index_Raise _ _ sent t).
  - intros Hall. rewrite (traverse_index_Ok _ _ 0) by done.
    by eexists.
Qed.

(** C8: on every preprocessor, a fresh one included, [fit_transform]
    gives the result, and leaves the object in the state, that [fit]
    followed by [transform] on the same corpus gives. *)
Theorem fit_transform_is_fit_then_transform X y p :
  fit_transform str_lower set_iter X y p =
  fit_then_transform str_lower set_iter X y p.
Proof.
  unfold fit_transform, fit_then_transform, bindM, lift, transform.
  destruct (fit str_lower set_iter X y p) as [[p'|e] p''] eqn:Hfit; [|done].
  pose proof (fit_returns_self str_lower set_iter X y p p') as Hself.
  rewrite Hfit in Hself. cbn in Hself. by rewrite Hself.
Qed.
End StaticClaims.

(** C6, at a concrete corpus: the label ["B"] was not in the fitted label
    corpus, the label ["O"] was. *)
Lemma transform_labels_strict_witness :
  let p := (fit ascii_lower first_seen_order [[py "a"]] (Some [[py "O"]])
              (init true true true [])).2 in
  transform_of ascii_lower p [[py "a"]] (Some [[py "B"]]) = Raise KeyError ∧
  ∃ inputs,
    transform_of ascii_lower p [[py "a"]] (Some [[py "O"]]) =
      Ok (InputsLabels inputs [[1]]).
Proof.
  pose proof (transform_labels_strict ascii_lower first_seen_order
                true true true [] [[py "a"]] [[py "O"]] [[py "a"]]) as H.
  split.
  - apply (H [[py "B"]]). exists [py "B"], (py "B").
    split; [by left|]. split; [by left|]. reflexivity.
  - apply (H [[py "O"]]). intros sent t Hs Ht.
    apply list_elem_of_singleton in Hs as ->.
    apply list_elem_of_singleton in Ht as ->. by eexists.
Defined.

(** ** Before [fit] *)

Lemma init_char_id (c : N) :
  dict_get_default [(PAD, 0); (UNK, 1)] [c] 1 = 1.
Proof.
  unfold dict_get_default. cbn [dict_get].
  rewrite !decide_False; [done|..]; intros Heq;
    by apply (f_equal length) in Heq.
Qed.

Lemma init_word_id (w : pystr) :
  dict_get_default [(PAD, 0); (UNK, 1)] w 1 =
    if decide (w = PAD) then 0 else 1.
Proof.
  unfold dict_get_default. cbn [dict_get].
  destruct (decide (w = PAD)); [done|]. by destruct (decide (w = UNK)).
Qed.

Lemma fmap_fst_fmap {A B C} (h : A → B * C) (f : A → B) (l : list A) :
  (∀ a, (h a).1 = f a) → (h <$> l).*1 = f <$> l.
Proof. intros Hh. induction l; cbn; [done|]. by rewrite Hh, IHl. Qed.

Lemma fmap_snd_fmap {A B C} (h : A → B * C) (g : A → C) (l : list A) :
  (∀ a, (h a).2 = g a) → (h <$> l).*2 = g <$> l.
Proof. intros Hh. induction l; cbn; [done|]. by rewrite Hh, IHl. Qed.

Lemma omap_id_Some {A B C} (h : A → B * option C) (g : A → C) (l : list A) :
  (∀ a, (h a).2 = Some (g a)) → omap id ((h <$> l).*2) = g <$> l.
Proof. intros Hh. induction l; cbn; [done|]. by rewrite Hh, IHl. Qed.

Lemma omap_id_None {A B C} (h : A → B * option C) (l : list A) :
  (∀ a, (h a).2 = None) → omap id ((h <$> l).*2) = [].
Proof. intros Hh. induction l; cbn; [done|]. by rewrite Hh, IHl. Qed.

Lemma inverse_init_doc (doc : list Z) :
  traverse (dict_index [(0, PAD)]) doc =
    if decide (Forall (fun t => t = 0) doc)
    then Ok ((fun _ => PAD) <$> doc) else Raise KeyError.
Proof.
  induction doc as [|t doc IH]; [done|].
  cbn [traverse]. rewrite IH. unfold dict_index. cbn [dict_get].
  destruct (decide (t = 0)) as [->|Hne]; cbn -[PAD].
  - destruct (decide (Forall _ doc)) as [Hd|Hd]; cbn -[PAD].
    + by rewrite decide_True by by constructor.
    + rewrite decide_False; [done|]. by intros [_ ?]%Forall_cons.
  - rewrite decide_False; [done|]. by intros [? _]%Forall_cons.
Qed.

Section Unfitted.
Variable str_lower : pystr → pystr.

Lemma init_transform_sent lc nn cf vi (sent : list pystr) :
  let p := init lc nn cf vi in
  transform_sent str_lower p sent =
    Ok ((fun w => if decide (normalize str_lower p w = PAD) then 0 else 1)
          <$> sent,
        if cf then (fun w : pystr => (fun _ => 1) <$> w) <$> sent else []).
Proof.
  intros p. unfold transform_sent.
  rewrite (traverse_Ok _
    (fun w => (if decide (normalize str_lower p w = PAD) then 0 else 1,
               if cf then Some ((fun _ => 1) <$> w) else None))).
  - cbn -[normalize PAD]. do 2 f_equal; [by apply fmap_fst_fmap|].
    destruct cf; [by apply omap_id_Some|by apply omap_id_None].
  - intros w _. unfold transform_word.
    destruct (word_id_Ok str_lower p w (init_has_unk lc nn cf vi))
      as (unk & Hunk & ->).
    destruct (get_char_ids_Ok p w (init_has_unk lc nn cf vi))
      as (cunk & Hcunk & ->).
    cbv in Hunk, Hcunk. injection Hunk as <-. injection Hcunk as <-.
    change (_char_feature p) with cf.
    change (word_dic p) with [(PAD, 0); (UNK, 1)].
    change (char_dic p) with [(PAD, 0); (UNK, 1)].
    rewrite init_word_id.
    rewrite (list_fmap_ext _ (fun _ : N => 1) w)
      by (intros; apply init_char_id).
    by destruct cf.
Qed.

(** C2, as the code has it: a preprocessor on which [fit] was never
    called raises no error for being unfitted.  For every corpus,
    [transform] without labels returns: each word encoded as [0] when its
    normalized form is the reserved [PAD] token and as the [UNK] id [1]
    otherwise, and, when [_char_feature] is set, each character encoded as
    [1].  [inverse_transform] returns [PAD] for every id [0], and raises
    [KeyError] exactly when some id is not [0]. *)
Theorem unfitted_transform lc nn cf vi (X : list (list pystr))
    (docs : list (list Z)) :
  let p := init lc nn cf vi in
  transform_of str_lower p X None =
    Ok (Inputs
          (EWords ((fun sent : list pystr =>
                      (fun w =>
                         if decide (normalize str_lower p w = PAD)
                         then 0 else 1)
                        <$> sent) <$> X)
           :: if cf
              then [EChars ((fun sent : list pystr =>
                               (fun w : pystr => (fun _ => 1) <$> w) <$> sent)
                              <$> X)]
              else [])) ∧
  inverse_transform p docs =
    if decide (Forall (Forall (fun t => t = 0)) docs)
    then Ok ((fun doc : list Z => (fun _ => PAD) <$> doc) <$> docs)
    else Raise KeyError.
Proof.
  intros p. split.
  - unfold transform_of.
    rewrite (traverse_Ok _
      (fun sent =>
         ((fun w => if decide (normalize str_lower p w = PAD) then 0 else 1)
            <$> sent,
          if cf then (fun w : pystr => (fun _ => 1) <$> w) <$> sent else [])))
      by (intros sent _; apply init_transform_sent).
    cbn -[normalize PAD].
    rewrite (fmap_fst_fmap _
      (fun sent : list pystr =>
         (fun w => if decide (normalize str_lower p w = PAD) then 0 else 1)
           <$> sent))
      by done.
    destruct cf; [|done].
    by rewrite (fmap_snd_fmap _
      (fun sent : list pystr => (fun w : pystr => (fun _ : N => 1) <$> w)
                                  <$> sent)).
  - unfold inverse_transform, id2label. cbn -[PAD traverse].
    induction docs as [|doc docs IH]; [done|].
    cbn [traverse]. rewrite inverse_init_doc.
    destruct (decide (Forall (fun t => t = 0) doc)) as [Hd|Hd]; cbn -[PAD].
    + rewrite IH.
      destruct (decide (Forall (Forall (fun t => t = 0)) docs)) as [Hds|Hds];
        cbn -[PAD].
      * by rewrite decide_True by by constructor.
      * rewrite decide_False; [done|]. by intros [_ ?]%Forall_cons.
    + rewrite decide_False; [done|]. by intros [? _]%Forall_cons.
Qed.
End Unfitted.

(** C2, as stated, fails: on a preprocessor that was never fitted,
    [transform] and [inverse_transform] return a value where the claim has
    them raise. *)
Lemma unfitted_no_error :
  transform_of ascii_lower (init true true true []) [[py "a"]] None =
    Ok (Inputs [EWords [[1]]; EChars [[[1]]]]) ∧
  inverse_transform (init true true true []) [[0]] = Ok [[PAD]] ∧
  ¬ (∃ e, transform_of ascii_lower (init true true true []) [[py "a"]] None
            = Raise e) ∧
  ¬ (∃ e, inverse_transform (init true true true []) [[0]] = Raise e).
Proof.
  split; [reflexivity|]. split; [reflexivity|].
  split; intros [e He]; vm_compute in He; discriminate He.
Qed.

Lemma fit_Some str_lower set_iter X y p :
  fit str_lower set_iter X (Some y) p =
    let p' :=
      fit_labels (set_iter (concat y))
        (fit_words str_lower (set_iter (concat X ++ _vocab_init p)) p) in
    (Ok p', p').
Proof. reflexivity. Qed.

(** ** Labels that are not the reserved token *)

Section LabelsRoundTrip.
Variable str_lower : pystr → pystr.
Variable set_iter : list pystr → list pystr.
Hypothesis Hset : set_iter_ok set_iter.

Lemma fit_words_label_dic ws p :
  label_dic (fit_words str_lower ws p) = label_dic p.
Proof.
  unfold fit_words. revert p.
  induction ws as [|w ws IH]; intros p; cbn; [done|].
  rewrite IH. unfold fit_word. by destruct (_char_feature p).
Qed.

Lemma fit_labels_word_dic ts p :
  word_dic (fit_labels ts p) = word_dic p ∧
  char_dic (fit_labels ts p) = char_dic p.
Proof.
  unfold fit_labels. revert p.
  induction ts as [|t ts IH]; intros p; cbn; [done|].
  by destruct (IH (fit_label p t)) as [-> ->].
Qed.

(** Labels that are all new are given the next ids, in the order in which
    the set yields them, and the ids assigned before are kept. *)
Lemma fit_labels_fresh ts p :
  vocab_ok (label_dic p) → NoDup ts →
  (∀ t, t ∈ ts → dict_get (label_dic p) t = None) →
  vocab_ok (label_dic (fit_labels ts p)) ∧
  (∀ t i, dict_get (label_dic p) t = Some i →
          dict_get (label_dic (fit_labels ts p)) t = Some i) ∧
  (∀ t, t ∈ ts → is_Some (dict_get (label_dic (fit_labels ts p)) t)).
Proof.
  unfold fit_labels. revert p.
  induction ts as [|t ts IH]; intros p Hok Hnd Hnew; cbn.
  - split; [done|]. split; [done|]. by intros t ?%elem_of_nil.
  - apply NoDup_cons in Hnd as [Ht Hnd].
    assert (Hnone : dict_get (label_dic p) t = None) by (apply Hnew; by left).
    destruct (IH (fit_label p t)) as (Hok' & Hkeep & Hin); [..|split; [|split]].
    + by apply vocab_ok_add.
    + done.
    + intros t' Ht'. cbn. rewrite dict_get_set_ne by (by intros ->).
      apply Hnew. by right.
    + done.
    + intros t' i Hi. apply Hkeep. cbn.
      rewrite dict_get_set_ne; [done|]. intros ->. congruence.
    + intros t' [->|Ht']%elem_of_cons; [|by apply Hin].
      eexists. apply Hkeep. cbn. apply dict_get_set_eq.
Qed.

Lemma init_vocab_ok lc nn cf vi :
  vocab_ok (word_dic (init lc nn cf vi)) ∧
  vocab_ok (char_dic (init lc nn cf vi)) ∧
  vocab_ok (label_dic (init lc nn cf vi)).
Proof.
  assert (Hwc : vocab_ok [(PAD, 0); (UNK, 1)]).
  { split; [|done]. cbn. apply NoDup_cons. split.
    - by intros ?%list_elem_of_singleton.
    - apply NoDup_singleton. }
  split; [done|]. split; [done|].
  split; [apply NoDup_singleton|done].
Qed.

(** For every label corpus that does not contain the token ["<PAD>"],
    [fit], [transform] and [inverse_transform] return the label corpus. *)
Lemma label_round_trip_without_pad lc nn cf vi (X L : list (list pystr)) :
  (∀ sent, sent ∈ L → PAD ∉ sent) →
  label_round_trip str_lower set_iter (init lc nn cf vi) X L = Ok L.
Proof.
  intros Hpad. unfold label_round_trip. rewrite fit_Some. cbv zeta.
  set (p1 := fit_words str_lower _ (init lc nn cf vi)).
  set (ts := set_iter (concat L)).
  destruct (Hset (concat L)) as [Hnd Hts]. fold ts in Hnd, Hts.
  assert (Hl1 : label_dic p1 = [(PAD, 0)]) by apply fit_words_label_dic.
  destruct (fit_labels_fresh ts p1) as (Hok & _ & Hin).
  { rewrite Hl1. apply (init_vocab_ok lc nn cf vi). }
  { done. }
  { intros t Ht. rewrite Hl1. cbn. rewrite decide_False; [done|].
    intros ->. apply Hts, list_elem_of_In, in_concat in Ht
      as (sent & Hsent%list_elem_of_In & Ht%list_elem_of_In).
    by apply (Hpad sent). }
  set (p := fit_labels ts p1) in *.
  assert (Hp : has_unk p).
  { apply fit_labels_has_unk, fit_words_has_unk, init_has_unk. }
  destruct (dict_round_trip (label_dic p) L) as (ids & Hids & Hback).
  { by apply vocab_ok_ids_NoDup. }
  { intros sent t Hsent Ht. apply Hin, Hts, list_elem_of_In, in_concat.
    exists sent. by split; apply list_elem_of_In. }
  destruct (transform_sents_Ok str_lower p X Hp) as [ps Hps].
  unfold transform_of. rewrite Hps. cbn. by rewrite Hids.
Qed.
End LabelsRoundTrip.

(** ** Words that do not normalize to the reserved token *)

Section UnknownWords.
Variable str_lower : pystr → pystr.
Variable set_iter : list pystr → list pystr.
Hypothesis Hset : set_iter_ok set_iter.

Lemma fit_word_flags p w :
  _lowercase (fit_word str_lower p w) = _lowercase p ∧
  _num_norm (fit_word str_lower p w) = _num_norm p.
Proof. unfold fit_word. by destruct (_char_feature p). Qed.

Lemma normalize_flags p p' w :
  _lowercase p' = _lowercase p → _num_norm p' = _num_norm p →
  normalize str_lower p' w = normalize str_lower p w.
Proof. unfold normalize. by intros -> ->. Qed.

(** The character loop keeps the ids in order, whatever the corpus. *)
Lemma fit_chars_vocab_ok w (cd : dict pystr Z) :
  vocab_ok cd → vocab_ok (fit_chars w cd).
Proof.
  unfold fit_chars. revert cd.
  induction w as [|c w IH]; intros cd Hok; cbn; [done|].
  apply IH. destruct (dict_mem cd [c]) eqn:Hmem; [done|].
  by apply vocab_ok_add, dict_mem_false.
Qed.

(** Words whose normalized forms are new and pairwise distinct are given
    the next ids in the order in which the set yields them, and the ids
    assigned before are kept. *)
Lemma fit_words_fresh ws p :
  vocab_ok (word_dic p) →
  NoDup (normalize str_lower p <$> ws) →
  (∀ w, w ∈ ws → dict_get (word_dic p) (normalize str_lower p w) = None) →
  vocab_ok (word_dic (fit_words str_lower ws p)) ∧
  ∀ k i, dict_get (word_dic p) k = Some i →
         dict_get (word_dic (fit_words str_lower ws p)) k = Some i.
Proof.
  unfold fit_words. revert p.
  induction ws as [|w ws IH]; intros p Hok Hnd Hnew; cbn; [done|].
  cbn in Hnd. apply NoDup_cons in Hnd as [Hw Hnd].
  destruct (fit_word_flags p w) as [Hlc Hnn].
  assert (Hnone : dict_get (word_dic p) (normalize str_lower p w) = None)
    by (apply Hnew; by left).
  assert (Hdic : word_dic (fit_word str_lower p w) =
                 dict_set (word_dic p) (normalize str_lower p w)
                   (dict_len (word_dic p))).
  { unfold fit_word. by destruct (_char_feature p). }
  destruct (IH (fit_word str_lower p w)) as [Hok' Hkeep].
  - rewrite Hdic. by apply vocab_ok_add.
  - erewrite list_fmap_ext; [exact Hnd|].
    intros _ w' _. by apply normalize_flags.
  - intros w' Hw'. rewrite (normalize_flags p) by done. rewrite Hdic.
    rewrite dict_get_set_ne; [apply Hnew; by right|].
    intros Heq. apply Hw. rewrite Heq. by apply list_elem_of_fmap_2.
  - split; [done|]. intros k i Hk. apply Hkeep. rewrite Hdic.
    rewrite dict_get_set_ne; [done|]. intros <-. congruence.
Qed.

(** The character dictionary never loses the id [1] of [UNK]; the word
    dictionary keeps it as long as no word of the corpus normalizes to
    ["<UNK>"]. *)
Lemma fit_words_unk ws p :
  dict_get (word_dic p) UNK = Some 1 → dict_get (char_dic p) UNK = Some 1 →
  (∀ w, w ∈ ws → normalize str_lower p w ≠ UNK) →
  dict_get (word_dic (fit_words str_lower ws p)) UNK = Some 1 ∧
  dict_get (char_dic (fit_words str_lower ws p)) UNK = Some 1.
Proof.
  unfold fit_words. revert p.
  induction ws as [|w ws IH]; intros p Hw Hc Hne; cbn; [done|].
  destruct (fit_word_flags p w) as [Hlc Hnn].
  apply IH.
  - unfold fit_word. destruct (_char_feature p); cbn;
      (rewrite dict_get_set_ne; [done|]); apply Hne; by left.
  - unfold fit_word. destruct (_char_feature p); cbn; [|done].
    by apply fit_chars_keeps.
  - intros w' Hw'. rewrite (normalize_flags p) by done. apply Hne. by right.
Qed.

(** After [fit] on a corpus in which no word normalizes to ["<UNK>"], a
    word whose normalized form is not in the word dictionary is encoded as
    [1], and so is a character that is not in the character dictionary. *)
Lemma unseen_is_unk lc nn cf vi X y w :
  let p0 := init lc nn cf vi in
  let p := (fit str_lower set_iter X (Some y) p0).2 in
  (∀ w, w ∈ concat X ++ vi → normalize str_lower p0 w ≠ UNK) →
  (dict_get (word_dic p) (normalize str_lower p w) = None →
   word_id str_lower p w = Ok 1) ∧
  _get_char_ids p w =
    Ok ((fun c => default 1 (dict_get (char_dic p) [c])) <$> w).
Proof.
  intros p0 p Hne.
  destruct (fit_words_unk (set_iter (concat X ++ vi)) p0) as [Hw Hc];
    [done|done| |].
  { intros w' Hw'. apply Hne. by apply (Hset (concat X ++ vi)). }
  assert (Hpw : dict_get (word_dic p) UNK = Some 1).
  { unfold p. rewrite fit_Some. cbn.
    by rewrite (proj1 (fit_labels_word_dic _ _)). }
  assert (Hpc : dict_get (char_dic p) UNK = Some 1).
  { unfold p. rewrite fit_Some. cbn.
    by rewrite (proj2 (fit_labels_word_dic _ _)). }
  split.
  - intros Hnone. unfold word_id, dict_index, dict_get_default.
    by rewrite Hpw, Hnone.
  - unfold _get_char_ids. apply traverse_Ok. intros c _.
    unfold dict_index. by rewrite Hpc.
Qed.
End UnknownWords.

(** ** ASCII corpora and the iteration order of small sets *)

Lemma set_iter_permutations set_iter (l : list pystr) :
  set_iter_ok set_iter → set_iter l ∈ permutations (remove_dups l).
Proof.
  intros Hset. destruct (Hset l) as [Hnd Hin].
  apply permutations_Permutation. symmetry.
  apply NoDup_Permutation; [done|apply NoDup_remove_dups|].
  intros x. by rewrite Hin, elem_of_remove_dups.
Qed.

Section Ascii.
Variable str_lower : pystr → pystr.
Hypothesis Hlower : str_lower_ok str_lower.

Lemma normalize_ascii p w :
  is_ascii w → normalize str_lower p w = normalize ascii_lower p w.
Proof. intros Hw. unfold normalize. by rewrite Hlower. Qed.

Lemma fit_word_ascii p w :
  is_ascii w → fit_word str_lower p w = fit_word ascii_lower p w.
Proof. intros Hw. unfold fit_word. by rewrite normalize_ascii. Qed.

Lemma fit_words_ascii ws p :
  Forall is_ascii ws → fit_words str_lower ws p = fit_words ascii_lower ws p.
Proof.
  unfold fit_words. intros Hws. revert p.
  induction Hws as [|w ws Hw _ IH]; intros p; cbn; [done|].
  by rewrite fit_word_ascii, IH.
Qed.

Lemma traverse_ext {A B} (f g : A → result B) (l : list A) :
  Forall (fun a => f a = g a) l → traverse f l = traverse g l.
Proof. induction 1 as [|a l Ha _ IH]; cbn; [done|]. by rewrite Ha, IH. Qed.

Lemma transform_of_ascii p X y :
  Forall (Forall is_ascii) X →
  transform_of str_lower p X y = transform_of ascii_lower p X y.
Proof.
  intros HX. unfold transform_of.
  rewrite (traverse_ext (transform_sent str_lower p)
             (transform_sent ascii_lower p)); [done|].
  eapply Forall_impl; [exact HX|]. intros sent Hsent. unfold transform_sent.
  rewrite (traverse_ext (transform_word str_lower p)
             (transform_word ascii_lower p)); [done|].
  eapply Forall_impl; [exact Hsent|]. intros w Hw.
  unfold transform_word, word_id. by rewrite normalize_ascii.
Qed.
End Ascii.

(** Decides [Forall is_ascii] and the like on explicit corpora. *)
Ltac ascii_corpus :=
  repeat first [apply Forall_nil_2 | apply Forall_cons_2]; by vm_compute.

(** Splits on the order in which [iter] visits the explicit list [l]. *)
Ltac set_iter_cases iter Hset l ws :=
  let H := fresh "Hperm" in
  pose proof (set_iter_permutations iter l Hset) as H;
  let r := eval vm_compute in (permutations (remove_dups l)) in
  change (permutations (remove_dups l)) with r in H;
  remember (iter l) as ws eqn:Heqws; clear Heqws;
  repeat (apply elem_of_cons in H as [->|H]);
  [..|by apply elem_of_nil in H].

Section Scenarios.
Variable str_lower : pystr → pystr.
Variable set_iter : list pystr → list pystr.
Hypothesis Hlower : str_lower_ok str_lower.
Hypothesis Hset : set_iter_ok set_iter.

(** C1, at the corpus [[["2", "9"]]] with [lowercase] and [num_norm]
    set: whichever of the two words the set yields first, its normalized
    form ["0"] is given the id [2]; the other word has the same
    normalized form, which is in the dictionary by then, and line 50
    gives it the id [3] all the same.  The dictionary then has three
    entries, so that the next new word would be given the id [3] too. *)
Theorem fit_reassigns_word_id :
  let p0 := init true true true [] in
  ∃ w1 w2 p,
    set_iter (concat [[py "2"; py "9"]] ++ _vocab_init p0) = [w1; w2] ∧
    fit str_lower set_iter [[py "2"; py "9"]] (Some [[py "O"; py "O"]]) p0
      = (Ok p, p) ∧
    dict_get (word_dic (fit_word str_lower p0 w1)) (py "0") = Some 2 ∧
    normalize str_lower p0 w2 = py "0" ∧
    dict_get (word_dic p) (py "0") = Some 3 ∧
    dict_len (word_dic p) = 3.
Proof.
  intros p0. rewrite fit_Some.
  set_iter_cases set_iter Hset
    (concat [[py "2"; py "9"]] ++ _vocab_init p0) ws;
  set_iter_cases set_iter Hset (concat [[py "O"; py "O"]]) ls;
  do 3 eexists; (split; [reflexivity|]);
  rewrite (fit_words_ascii str_lower Hlower) by ascii_corpus;
  (split; [reflexivity|]);
  rewrite (fit_word_ascii str_lower Hlower) by ascii_corpus;
  rewrite (normalize_ascii str_lower Hlower) by ascii_corpus;
  by vm_compute.
Qed.

(** C5, at a corpus that contains the token ["<UNK>"] itself, with
    [lowercase] off: line 50 gives the key [UNK] of the word dictionary
    the id [2], and [transform] then encodes a word that [fit] never saw
    as [2], not as [1]. *)
Theorem unseen_word_not_one :
  let p0 := init false true true [] in
  ∃ p,
    fit str_lower set_iter [[UNK]] (Some [[py "O"]]) p0 = (Ok p, p) ∧
    dict_get (word_dic p) (normalize str_lower p (py "zzz")) = None ∧
    dict_get (word_dic p) UNK = Some 2 ∧
    transform_of str_lower p [[py "zzz"]] None =
      Ok (Inputs [EWords [[2]]; EChars [[[1; 1; 1]]]]).
Proof.
  intros p0. rewrite fit_Some.
  set_iter_cases set_iter Hset (concat [[UNK]] ++ _vocab_init p0) ws;
  set_iter_cases set_iter Hset (concat [[py "O"]]) ls.
  eexists. split; [reflexivity|]. by vm_compute.
Qed.

(** C7, at the label corpus [[["<PAD>", "O"]]] when the set of labels is
    visited in this order: line 54 gives [PAD] the id [1] and then ["O"]
    the id [1] as well, [transform] returns [[[1, 1]]], and
    [inverse_transform] returns [[["O", "O"]]], which is not the label
    corpus. *)
Theorem label_round_trip_reserved :
  set_iter (concat [[PAD; py "O"]]) = [PAD; py "O"] →
  label_round_trip str_lower set_iter (init true true true [])
    [[py "a"; py "b"]] [[PAD; py "O"]] = Ok [[py "O"; py "O"]] ∧
  Ok [[py "O"; py "O"]] ≠ Ok [[PAD; py "O"]].
Proof.
  intros Hlabels. split; [|by vm_compute].
  unfold label_round_trip. rewrite fit_Some, Hlabels.
  set (p0 := init true true true []).
  set_iter_cases set_iter Hset
    (concat [[py "a"; py "b"]] ++ _vocab_init p0) ws;
  rewrite (fit_words_ascii str_lower Hlower) by ascii_corpus;
  cbv beta iota zeta;
  rewrite (transform_of_ascii str_lower Hlower) by ascii_corpus;
  by vm_compute.
Qed.

(** C10: with [lowercase] and [num_norm] set, after [fit] on
    [[["I", "saw", "2", "cats"]]] with the labels [[["O", "O", "O", "O"]]],
    in whichever order the sets are visited, the word ["2"] is
    normalized to ["0"] and has a word id that differs from the ids of
    ["I"], ["saw"] and ["cats"]; [transform] of
    [[["I", "saw", "9", "dogs"]]] gives ["9"], normalized to ["0"] too,
    the id of ["2"], and gives ["dogs"] the id [1] of [UNK]. *)
Theorem scenario_digits :
  let p0 := init true true true [] in
  ∃ p i_I i_saw i_2 i_cats chars0 chars,
    fit str_lower set_iter [[py "I"; py "saw"; py "2"; py "cats"]]
      (Some [[py "O"; py "O"; py "O"; py "O"]]) p0 = (Ok p, p) ∧
    normalize str_lower p (py "2") = py "0" ∧
    normalize str_lower p (py "9") = py "0" ∧
    dict_get (word_dic p) UNK = Some 1 ∧
    dict_get (word_dic p) (normalize str_lower p (py "dogs")) = None ∧
    transform_of str_lower p [[py "I"; py "saw"; py "2"; py "cats"]] None =
      Ok (Inputs [EWords [[i_I; i_saw; i_2; i_cats]]; EChars chars0]) ∧
    transform_of str_lower p [[py "I"; py "saw"; py "9"; py "dogs"]] None =
      Ok (Inputs [EWords [[i_I; i_saw; i_2; 1]]; EChars chars]) ∧
    i_2 ≠ i_I ∧ i_2 ≠ i_saw ∧ i_2 ≠ i_cats.
Proof.
  intros p0. rewrite fit_Some.
  set_iter_cases set_iter Hset
    (concat [[py "I"; py "saw"; py "2"; py "cats"]] ++ _vocab_init p0) ws;
  set_iter_cases set_iter Hset
    (concat [[py "O"; py "O"; py "O"; py "O"]]) ls;
  rewrite (fit_words_ascii str_lower Hlower) by ascii_corpus;
  eexists; do 6 eexists; (split; [reflexivity|]);
  rewrite !(normalize_ascii str_lower Hlower) by ascii_corpus;
  rewrite !(transform_of_ascii str_lower Hlower) by ascii_corpus;
  vm_compute; repeat (split; [reflexivity|]); by repeat split.
Qed.
End Scenarios.

(** The scenarios, with ASCII case folding and the sets visited in the
    order of first occurrence. *)

Lemma fit_reassigns_word_id_witness :
  let p0 := init true true true [] in
  ∃ w1 w2 p,
    first_seen_order (concat [[py "2"; py "9"]] ++ _vocab_init p0) = [w1; w2] ∧
    fit ascii_lower first_seen_order [[py "2"; py "9"]]
      (Some [[py "O"; py "O"]]) p0 = (Ok p, p) ∧
    dict_get (word_dic (fit_word ascii_lower p0 w1)) (py "0") = Some 2 ∧
    normalize ascii_lower p0 w2 = py "0" ∧
    dict_get (word_dic p) (py "0") = Some 3 ∧
    dict_len (word_dic p) = 3.
Proof.
  exact (fit_reassigns_word_id ascii_lower first_seen_order
           ascii_lower_ok first_seen_order_ok).
Defined.

Lemma unseen_word_not_one_witness :
  let p0 := init false true true [] in
  ∃ p,
    fit ascii_lower first_seen_order [[UNK]] (Some [[py "O"]]) p0 = (Ok p, p) ∧
    dict_get (word_dic p) (normalize ascii_lower p (py "zzz")) = None ∧
    dict_get (word_dic p) UNK = Some 2 ∧
    transform_of ascii_lower p [[py "zzz"]] None =
      Ok (Inputs [EWords [[2]]; EChars [[[1; 1; 1]]]]).
Proof.
  exact (unseen_word_not_one ascii_lower first_seen_order first_seen_order_ok).
Defined.

Lemma label_round_trip_reserved_witness :
  label_round_trip ascii_lower first_seen_order (init true true true [])
    [[py "a"; py "b"]] [[PAD; py "O"]] = Ok [[py "O"; py "O"]] ∧
  Ok [[py "O"; py "O"]] ≠ Ok [[PAD; py "O"]].
Proof.
  apply (label_round_trip_reserved ascii_lower first_seen_order
           ascii_lower_ok first_seen_order_ok).
  reflexivity.
Defined.

Lemma scenario_digits_witness :
  let p0 := init true true true [] in
  ∃ p i_I i_saw i_2 i_cats chars0 chars,
    fit ascii_lower first_seen_order [[py "I"; py "saw"; py "2"; py "cats"]]
      (Some [[py "O"; py "O"; py "O"; py "O"]]) p0 = (Ok p, p) ∧
    normalize ascii_lower p (py "2") = py "0" ∧
    normalize ascii_lower p (py "9") = py "0" ∧
    dict_get (word_dic p) UNK = Some 1 ∧
    dict_get (word_dic p) (normalize ascii_lower p (py "dogs")) = None ∧
    transform_of ascii_lower p [[py "I"; py "saw"; py "2"; py "cats"]] None =
      Ok (Inputs [EWords [[i_I; i_saw; i_2; i_cats]]; EChars chars0]) ∧
    transform_of ascii_lower p [[py "I"; py "saw"; py "9"; py "dogs"]] None =
      Ok (Inputs [EWords [[i_I; i_saw; i_2; 1]]; EChars chars]) ∧
    i_2 ≠ i_I ∧ i_2 ≠ i_saw ∧ i_2 ≠ i_cats.
Proof.
  exact (scenario_digits ascii_lower first_seen_order
           ascii_lower_ok first_seen_order_ok).
Defined.

(** ** pad_nested_sequences *)

Lemma int32_id (z : Z) : - 2 ^ 31 ≤ z < 2 ^ 31 → int32 z = z.
Proof. intros Hz. unfold int32. rewrite Z.mod_small; lia. Qed.

Lemma max_list_app (l k : list nat) :
  max_list (l ++ k) = (max_list l `max` max_list k)%nat.
Proof. induction l as [|n l IH]; cbn; [done|]. rewrite IH. lia. Qed.

Lemma list_alter_alter {A} (f g : A → A) (i : nat) (l : list A) :
  alter f i (alter g i l) = alter (f ∘ g) i l.
Proof.
  apply list_eq. intros j. destruct (decide (i = j)) as [->|].
  - rewrite !list_lookup_alter_eq. by destruct (l !! j).
  - by rewrite !list_lookup_alter_ne.
Qed.

(** The loop [for i, a in enumerate(l): acc[i] = f(a, acc[i])], read at
    the index [i]. *)
Lemma fold_alter_enumerate {A B} (f : A → B → B) (l : list A) (n : nat)
    (acc : list B) (i : nat) :
  fold_left (fun acc '(j, a) => alter (f a) j acc) (enumerate_from n l) acc !! i
  = if decide (i < n)%nat then acc !! i
    else match l !! (i - n)%nat with
         | Some a => f a <$> acc !! i
         | None => acc !! i
         end.
Proof.
  revert n acc. induction l as [|a l IH]; intros n acc; cbn.
  - by destruct (decide (i < n)%nat).
  - rewrite IH. destruct (decide (i < n)%nat) as [Hlt|Hge].
    + rewrite decide_True by lia. apply list_lookup_alter_ne. lia.
    + destruct (decide (i = n)) as [->|Hne].
      * rewrite decide_True by lia. rewrite Nat.sub_diag. cbn.
        apply list_lookup_alter_eq.
      * rewrite decide_False by lia.
        replace (i - n)%nat with (S (i - S n)) by lia. cbn.
        by rewrite list_lookup_alter_ne by lia.
Qed.

Lemma fold_alter_length {A B} (f : A → B → B) (E : list (nat * A))
    (acc : list B) :
  length (fold_left (fun acc '(j, a) => alter (f a) j acc) E acc) = length acc.
Proof.
  revert acc. induction E as [|[j a] E IH]; intros acc; cbn; [done|].
  by rewrite IH, length_alter.
Qed.

Lemma fold_setitem3 (i : nat) (E : list (nat * list Z)) (x : ndarray3) :
  fold_left (fun x '(j, word) => setitem3 x i j word) E x =
  {| shape3 := shape3 x;
     data3 := alter
                (fun rows =>
                   fold_left
                     (fun rows '(j, word) => alter (set_prefix word) j rows)
                     E rows)
                i (data3 x) |}.
Proof.
  revert x. induction E as [|[j word] E IH]; intros x; cbn.
  - rewrite list_alter_id by done. by destruct x.
  - rewrite IH. cbn. f_equal. by rewrite list_alter_alter.
Qed.

Lemma fold_fill_words (E : list (nat * list (list Z))) (x : ndarray3) :
  fold_left
    (fun x '(i, sent) =>
       fold_left (fun x '(j, word) => setitem3 x i j word) (enumerate sent) x)
    E x =
  {| shape3 := shape3 x;
     data3 := fold_left (fun d '(i, sent) => alter (fill_words sent) i d)
                E (data3 x) |}.
Proof.
  revert x. induction E as [|[i sent] E IH]; intros x; cbn.
  - by destruct x.
  - rewrite IH, fold_setitem3. done.
Qed.

Lemma maxlens_spec (sequences : list (list (list Z))) :
  maxlens sequences =
    (max_list (length <$> sequences), max_list (length <$> concat sequences)).
Proof.
  unfold maxlens.
  assert (Hinner : ∀ (sent : list (list Z)) b,
    fold_left (fun mw word => (length word `max` mw)%nat) sent b =
      (b `max` max_list (length <$> sent))%nat).
  { induction sent as [|w sent IH]; intros b; cbn; [lia|]. rewrite IH. lia. }
  assert (Houter : ∀ a b,
    fold_left
      (fun '(ms, mw) (sent : list (list Z)) =>
         ((length sent `max` ms)%nat,
          fold_left (fun mw word => (length word `max` mw)%nat) sent mw))
      sequences (a, b) =
      ((a `max` max_list (length <$> sequences))%nat,
       (b `max` max_list (length <$> concat sequences))%nat)).
  { induction sequences as [|sent seqs IH]; intros a b; cbn.
    - f_equal; lia.
    - rewrite IH, Hinner, fmap_app, max_list_app. f_equal; lia. }
  by rewrite Houter.
Qed.

(** Every word of the batch fits in a row of the array: the slice
    [x[i, j, :len(word)]] has the length of [word]. *)
Lemma word_length_le_maxlen (sequences : list (list (list Z))) i j sent word :
  sequences !! i = Some sent → sent !! j = Some word →
  (length sent ≤ (maxlens sequences).1 ∧
   length word ≤ (maxlens sequences).2)%nat.
Proof.
  intros Hsent Hword. rewrite maxlens_spec. cbn. split.
  - apply max_list_elem_of_le, list_elem_of_fmap. exists sent.
    split; [done|]. by apply list_elem_of_lookup_2 in Hsent.
  - apply max_list_elem_of_le, list_elem_of_fmap. exists word.
    split; [done|]. apply list_elem_of_In, in_concat. exists sent.
    split; apply list_elem_of_In; by eapply list_elem_of_lookup_2.
Qed.

Lemma pad_nested_sequences_unfold (sequences : list (list (list Z))) :
  pad_nested_sequences sequences =
    let n := length sequences in
    let ms := max_list (length <$> sequences) in
    let mw := max_list (length <$> concat sequences) in
    {| shape3 := (n, ms, mw);
       data3 := fold_left (fun d '(i, sent) => alter (fill_words sent) i d)
                  (enumerate sequences)
                  (replicate n (replicate ms (replicate mw 0))) |}.
Proof.
  unfold pad_nested_sequences. rewrite maxlens_spec.
  by rewrite fold_fill_words.
Qed.

Lemma fill_words_lookup (sent rows : list (list Z)) (j : nat) :
  fill_words sent rows !! j =
    match sent !! j with
    | Some word => set_prefix word <$> rows !! j
    | None => rows !! j
    end.
Proof.
  unfold fill_words, enumerate. rewrite fold_alter_enumerate.
  rewrite decide_False by lia. by rewrite Nat.sub_0_r.
Qed.

Lemma fill_words_length (sent rows : list (list Z)) :
  length (fill_words sent rows) = length rows.
Proof. apply fold_alter_length. Qed.

Lemma set_prefix_length (word : list Z) (mw : nat) :
  (length word ≤ mw)%nat → length (set_prefix word (replicate mw 0)) = mw.
Proof.
  intros Hle. unfold set_prefix.
  rewrite length_app, length_fmap, length_drop, length_replicate. lia.
Qed.

Lemma set_prefix_lookup (word : list Z) (mw k : nat) :
  (length word ≤ mw)%nat → (k < mw)%nat →
  set_prefix word (replicate mw 0) !! k =
    Some (default 0 (int32 <$> word !! k)).
Proof.
  intros Hle Hk. unfold set_prefix. rewrite lookup_app, list_lookup_fmap.
  destruct (word !! k) as [c|] eqn:Hc; [done|]. cbn.
  apply lookup_ge_None in Hc.
  rewrite lookup_drop, length_fmap. apply lookup_replicate_2. lia.
Qed.

(** The rows of the padded array. *)
Lemma pad_nested_sequences_row (sequences : list (list (list Z))) (i : nat) :
  data3 (pad_nested_sequences sequences) !! i =
    (fun sent =>
       fill_words sent
         (replicate (max_list (length <$> sequences))
            (replicate (max_list (length <$> concat sequences)) 0)))
    <$> sequences !! i.
Proof.
  rewrite pad_nested_sequences_unfold. cbn. unfold enumerate.
  rewrite fold_alter_enumerate, decide_False by lia. rewrite Nat.sub_0_r.
  destruct (sequences !! i) as [sent|] eqn:Hi; cbn.
  - rewrite lookup_replicate_2; [done|]. by eapply lookup_lt_Some.
  - apply lookup_replicate_None. by apply lookup_ge_None.
Qed.

(** The cells of the padded array, before they are related to the ids. *)
Lemma pad_nested_sequences_cell (sequences : list (list (list Z))) i j k :
  (i < length sequences)%nat →
  (j < max_list (length <$> sequences))%nat →
  (k < max_list (length <$> concat sequences))%nat →
  get3 (pad_nested_sequences sequences) i j k =
    Some (default 0
            (int32 <$> (sent ← sequences !! i; word ← sent !! j; word !! k))).
Proof.
  intros Hi Hj Hk. unfold get3. rewrite pad_nested_sequences_row.
  destruct (lookup_lt_is_Some_2 sequences i Hi) as [sent Hsent].
  rewrite Hsent. cbn. rewrite fill_words_lookup, lookup_replicate_2 by done.
  destruct (sent !! j) as [word|] eqn:Hword; cbn.
  - apply set_prefix_lookup; [|done].
    pose proof (word_length_le_maxlen sequences i j sent word Hsent Hword)
      as [_ Hle].
    by rewrite maxlens_spec in Hle.
  - by apply lookup_replicate_2.
Qed.

Lemma pad_nested_sequences_well_shaped (sequences : list (list (list Z))) :
  well_shaped (pad_nested_sequences sequences).
Proof.
  unfold well_shaped.
  assert (Hshape : shape3 (pad_nested_sequences sequences) =
                     (length sequences, max_list (length <$> sequences),
                      max_list (length <$> concat sequences)))
    by (by rewrite pad_nested_sequences_unfold).
  rewrite Hshape. split.
  - rewrite pad_nested_sequences_unfold. cbn.
    by rewrite fold_alter_length, length_replicate.
  - apply Forall_lookup. intros i row Hrow.
    rewrite pad_nested_sequences_row in Hrow.
    destruct (sequences !! i) as [sent|] eqn:Hsent; [|done].
    injection Hrow as <-. split.
    + by rewrite fill_words_length, length_replicate.
    + apply Forall_lookup. intros j cell Hcell.
      rewrite fill_words_lookup in Hcell.
      destruct (sent !! j) as [word|] eqn:Hword.
      * destruct (replicate _ _ !! j) as [zeros|] eqn:Hz; [|done].
        apply lookup_replicate_1 in Hz as [-> _]. injection Hcell as <-.
        apply set_prefix_length.
        pose proof (word_length_le_maxlen sequences i j sent word Hsent Hword)
          as [_ Hle].
        by rewrite maxlens_spec in Hle.
      * apply lookup_replicate_1 in Hcell as [-> _].
        by rewrite length_replicate.
Qed.

(** C3: for every batch of nested character-id sequences, the ids being
    [int32] values as the cells of the array are,
    [pad_nested_sequences] returns an array of shape
    [(batch size, longest sentence, longest word of the whole batch)] whose
    cells agree with that shape; the cell [[i, j, k]] holds the [k]-th
    character id of the [j]-th word of the [i]-th sentence where there is
    one, and [0] everywhere else. *)
Theorem pad_nested_sequences_spec (sequences : list (list (list Z))) :
  Forall (Forall (Forall (fun c => - 2 ^ 31 ≤ c < 2 ^ 31))) sequences →
  let x := pad_nested_sequences sequences in
  let maxSentenceLen := max_list (length <$> sequences) in
  let maxWordLen := max_list (length <$> concat sequences) in
  shape3 x = (length sequences, maxSentenceLen, maxWordLen) ∧
  well_shaped x ∧
  ∀ i j k,
    (i < length sequences)%nat → (j < maxSentenceLen)%nat →
    (k < maxWordLen)%nat →
    get3 x i j k =
      Some (default 0 (sent ← sequences !! i; word ← sent !! j; word !! k)).
Proof.
  intros Hrange x maxSentenceLen maxWordLen. split; [|split].
  - unfold x. by rewrite pad_nested_sequences_unfold.
  - apply pad_nested_sequences_well_shaped.
  - intros i j k Hi Hj Hk. unfold x.
    rewrite pad_nested_sequences_cell by done. f_equal.
    destruct (sequences !! i) as [sent|] eqn:Hsent; [|done]. cbn.
    destruct (sent !! j) as [word|] eqn:Hword; [|done]. cbn.
    destruct (word !! k) as [c|] eqn:Hc; [|done]. cbn.
    apply int32_id.
    eapply Forall_lookup_1 in Hrange; [|exact Hsent].
    eapply Forall_lookup_1 in Hrange; [|exact Hword].
    by eapply Forall_lookup_1 in Hrange.
Qed.

(** C3 on the batch of the specification's scenario. *)
Lemma pad_nested_sequences_spec_witness :
  let x := pad_nested_sequences [[[1; 2]; [3]]; [[4; 5; 6]]] in
  shape3 x = (2, 2, 3)%nat ∧
  data3 x = [[[1; 2; 0]; [3; 0; 0]]; [[4; 5; 6]; [0; 0; 0]]] ∧
  get3 x 0 1 0 = Some 3 ∧ get3 x 0 1 2 = Some 0 ∧ get3 x 1 1 1 = Some 0.
Proof.
  assert (Hrange : Forall (Forall (Forall (fun c => - 2 ^ 31 ≤ c < 2 ^ 31)))
                     [[[1; 2]; [3]]; [[4; 5; 6]]]).
  { repeat first [apply Forall_nil_2 | apply Forall_cons_2]; lia. }
  destruct (pad_nested_sequences_spec _ Hrange) as (Hshape & _ & Hcell).
  split; [exact Hshape|]. split; [reflexivity|].
  split; [|split]; apply Hcell; cbn; lia.
Defined.

(** ** DynamicPreprocessor *)

Lemma insert_replicate_one (n k : nat) :
  (k < n)%nat →
  <[k := 1]> (replicate n 0) = replicate k 0 ++ 1 :: replicate (n - S k) 0.
Proof.
  revert k. induction n as [|n IH]; intros [|k] Hk; cbn; try lia.
  - by rewrite Nat.sub_0_r.
  - f_equal. apply IH. lia.
Qed.

Lemma filter_one_replicate_zero (n : nat) :
  filter (fun z => z = 1) (replicate n 0) = [].
Proof.
  induction n as [|n IH]; [done|]. cbn [replicate].
  by rewrite filter_cons_False.
Qed.

Lemma one_hot_Ok (n : nat) (k : Z) :
  0 ≤ k < Z.of_nat n →
  ∃ v, one_hot n k = Ok v ∧ one_hot_at n k v.
Proof.
  intros Hk. exists (<[Z.to_nat k := 1]> (replicate n 0)).
  unfold one_hot. rewrite decide_True by done. split; [done|].
  assert (Hlt : (Z.to_nat k < n)%nat) by lia.
  repeat split.
  - by rewrite length_insert, length_replicate.
  - apply list_lookup_insert_eq. by rewrite length_replicate.
  - intros p Hp Hne. rewrite list_lookup_insert_ne by done.
    by apply lookup_replicate_2.
  - rewrite insert_replicate_one by done.
    rewrite filter_app, filter_cons_True by done.
    rewrite !filter_one_replicate_zero. done.
Qed.

Lemma pad_sequences_lookup (y : list (list Z)) (i : nat) (s : list Z) :
  y !! i = Some s →
  pad_sequences y !! i =
    Some (s ++ replicate (max_list (length <$> y) - length s) 0) ∧
  (length s ≤ max_list (length <$> y))%nat.
Proof.
  intros Hs. unfold pad_sequences. rewrite list_lookup_fmap, Hs.
  split; [done|]. apply max_list_elem_of_le, list_elem_of_fmap.
  exists s. split; [done|]. by eapply list_elem_of_lookup_2.
Qed.

(** A batch with an id has at least one label. *)
Lemma ids_range_pos (y : list (list Z)) (n : nat) :
  Forall (Forall (fun k => 0 ≤ k < Z.of_nat n)) y →
  (0 < max_list (length <$> y))%nat → (0 < n)%nat.
Proof.
  induction 1 as [|s y Hs _ IH]; cbn; [lia|]. intros Hmax.
  destruct s as [|k s]; [by apply IH|].
  apply Forall_cons in Hs as [Hk _]. lia.
Qed.

Lemma pad_sequences_range (y : list (list Z)) (n : nat) :
  Forall (Forall (fun k => 0 ≤ k < Z.of_nat n)) y →
  Forall (Forall (fun k => 0 ≤ k < Z.of_nat n)) (pad_sequences y).
Proof.
  intros Hy. unfold pad_sequences. apply Forall_fmap.
  eapply Forall_impl; [exact Hy|]. intros s Hs. cbn.
  apply Forall_app. split; [done|].
  destruct (decide (0 < max_list (length <$> y))%nat) as [Hpos|Hzero].
  - apply Forall_replicate. pose proof (ids_range_pos y n Hy Hpos). lia.
  - by replace (max_list (length <$> y) - length s)%nat with 0%nat by lia.
Qed.

Lemma traverse_lookup {A B} (f : A → result B) (l : list A) bs i a :
  traverse f l = Ok bs → l !! i = Some a →
  ∃ b, bs !! i = Some b ∧ f a = Ok b.
Proof.
  revert bs i. induction l as [|a' l IH]; intros bs i; cbn; [done|].
  destruct (f a') as [b'|] eqn:Ha'; cbn; [|done].
  destruct (traverse f l) as [bs'|] eqn:Hl; cbn; [|done].
  intros [= <-]. destruct i as [|i]; cbn.
  - intros [= <-]. by exists b'.
  - by apply IH.
Qed.

Lemma traverse_Forall_Ok {A B} (P : A → Prop) (f : A → result B) (l : list A) :
  (∀ a, P a → ∃ b, f a = Ok b) → Forall P l → ∃ bs, traverse f l = Ok bs.
Proof.
  intros Hf. induction 1 as [|a l Ha _ [bs IH]]; cbn; [by eexists|].
  destruct (Hf a Ha) as [b ->]. rewrite IH. cbn. by eexists.
Qed.

(** C9: when label-id sequences are given to
    [DynamicPreprocessor.transform], their ids being ids of the [n_labels]
    labels, the third array it returns has one row per label sequence; each
    row has the length of the longest label sequence (the longest sentence
    when there is one label per word); its [j]-th entry is the one-hot vector
    of width [n_labels] for the [j]-th id of the sequence and, past the end
    of the sequence, for the padding id [0], which is [[1, 0, 0, ...]]. *)
Theorem dynamic_transform_labels (self : Dynamic.DynamicPreprocessor)
    (ws : list (list Z)) (cs : list (list (list Z))) (y : list (list Z)) :
  Forall (Forall (fun k => 0 ≤ k < Z.of_nat (Dynamic.n_labels self))) y →
  let n := Dynamic.n_labels self in
  let maxlen := max_list (length <$> y) in
  ∃ Y,
    Dynamic.transform self [EWords ws; EChars cs] (Some y) =
      Ok (Dynamic.SentsLabels (pad_sequences ws) (pad_nested_sequences cs) Y) ∧
    length Y = length y ∧
    (length <$> y = length <$> ws → maxlen = max_list (length <$> ws)) ∧
    ∀ i s, y !! i = Some s →
      ∃ row, Y !! i = Some row ∧ length row = maxlen ∧
        ∀ j, (j < maxlen)%nat →
          ∃ v, row !! j = Some v ∧
               one_hot_at n (default 0 (s !! j)) v ∧
               ((length s ≤ j)%nat → v = 1 :: replicate (n - 1) 0).
Proof.
  intros Hy n maxlen.
  pose proof (pad_sequences_range y n Hy) as Hpad.
  assert (∃ Y, traverse (traverse (one_hot n)) (pad_sequences y) = Ok Y)
    as [Y HY].
  { eapply traverse_Forall_Ok; [|exact Hpad]. intros s Hs.
    eapply traverse_Forall_Ok; [|exact Hs].
    intros k Hk. destruct (one_hot_Ok n k Hk) as (v & -> & _). by eexists. }
  exists Y. split; [|split; [|split]].
  - cbn. unfold to_categorical. fold n. by rewrite HY.
  - apply traverse_length in HY. rewrite HY. unfold pad_sequences.
    by rewrite length_fmap.
  - intros Heq. unfold maxlen. by rewrite Heq.
  - intros i s Hs.
    destruct (pad_sequences_lookup y i s Hs) as [Hi Hle].
    destruct (traverse_lookup _ _ _ _ _ HY Hi) as (row & Hrow & Hvs).
    exists row. split; [done|]. split.
    { apply traverse_length in Hvs. rewrite Hvs.
      rewrite length_app, length_replicate. fold maxlen in Hle |- *. lia. }
    intros j Hj. fold maxlen in Hi, Hle, Hvs.
    assert (Hk : (s ++ replicate (maxlen - length s) 0) !! j
                 = Some (default 0 (s !! j))).
    { rewrite lookup_app. destruct (s !! j) as [k|] eqn:Hsj; [done|]. cbn.
      apply lookup_ge_None in Hsj. apply lookup_replicate_2. lia. }
    destruct (traverse_lookup _ _ _ _ _ Hvs Hk) as (v & Hv & Hone).
    exists v. split; [done|].
    assert (Hrange : 0 ≤ default 0 (s !! j) < Z.of_nat n).
    { eapply Forall_lookup_1 in Hpad; [|exact Hi].
      by eapply Forall_lookup_1 in Hpad. }
    destruct (one_hot_Ok n _ Hrange) as (v' & Hv' & Hat).
    rewrite Hone in Hv'. injection Hv' as <-. split; [done|].
    intros Hge. apply lookup_ge_None in Hge.
    rewrite Hge in Hone. cbn in Hone. unfold one_hot in Hone.
    rewrite decide_True in Hone by lia. injection Hone as <-.
    rewrite insert_replicate_one by lia. cbn. repeat f_equal; lia.
Qed.

(** C9 on a batch of two label sequences and three labels. *)
Lemma dynamic_transform_labels_witness :
  ∃ Y,
    Dynamic.transform (Dynamic.mk 3) [EWords [[5; 6]; [7]];
                                      EChars [[[1; 2]; [3]]; [[4; 5; 6]]]]
      (Some [[1; 2]; [1]]) =
      Ok (Dynamic.SentsLabels [[5; 6]; [7; 0]]
            (pad_nested_sequences [[[1; 2]; [3]]; [[4; 5; 6]]]) Y) ∧
    Y = [[[0; 1; 0]; [0; 0; 1]]; [[0; 1; 0]; [1; 0; 0]]].
Proof.
  assert (Hy : Forall (Forall (fun k => 0 ≤ k < Z.of_nat 3)) [[1; 2]; [1]]).
  { repeat first [apply Forall_nil_2 | apply Forall_cons_2]; lia. }
  destruct (dynamic_transform_labels (Dynamic.mk 3) [[5; 6]; [7]]
              [[[1; 2]; [3]]; [[4; 5; 6]]] [[1; 2]; [1]]) as (Y & HY & _);
    [exact Hy|].
  exists Y. split; [exact HY|].
  vm_compute in HY. by injection HY as <-.
Defined.

(** C4, on the code: when [_char_feature] is off, [transform] returns the
    one-element list [[words]], and [DynamicPreprocessor.transform], given
    that list, raises [ValueError] at [words, chars = X] whatever the
    labels; nothing is padded. *)
Theorem dynamic_transform_needs_chars (str_lower : pystr → pystr)
    (p : StaticPreprocessor) (dp : Dynamic.DynamicPreprocessor)
    (X : list (list pystr)) :
  _char_feature p = false → has_unk p →
  ∃ words,
    transform_of str_lower p X None = Ok (Inputs [EWords words]) ∧
    (∀ y, Dynamic.transform dp [EWords words] y = Raise ValueError) ∧
    pipeline str_lower p dp X = Raise ValueError.
Proof.
  intros Hcf Hp.
  destruct (transform_sents_Ok str_lower p X Hp) as [ps Hps].
  exists ps.*1. unfold pipeline, transform_of. rewrite Hps, Hcf. cbn.
  by repeat split.
Qed.

(** C4 at the batch [[["a", "b"], ["c"]]], after a [fit] with
    [char_feature=False]. *)
Lemma dynamic_transform_needs_chars_witness :
  let p := (fit ascii_lower first_seen_order [[py "a"; py "b"]; [py "c"]]
              (Some [[py "O"; py "O"]; [py "O"]])
              (init true true false [])).2 in
  ∃ words,
    transform_of ascii_lower p [[py "a"; py "b"]; [py "c"]] None =
      Ok (Inputs [EWords words]) ∧
    (∀ y, Dynamic.transform (Dynamic.mk 2) [EWords words] y
          = Raise ValueError) ∧
    pipeline ascii_lower p (Dynamic.mk 2) [[py "a"; py "b"]; [py "c"]] =
      Raise ValueError.
Proof.
  intros p.
  apply (dynamic_transform_needs_chars ascii_lower p (Dynamic.mk 2)).
  - reflexivity.
  - split; vm_compute; by eexists.
Defined.


(** * Further properties of the preprocessors *)

(** ** normalize_number *)

(** X1: [normalize_number] keeps the length of the text, replaces every
    ASCII or full-width digit by ["0"] and leaves every other character as
    it is; no digit other than the ASCII ["0"] is left, and normalizing a
    second time changes nothing. *)
Theorem normalize_number_idempotent (text : pystr) :
  length (normalize_number text) = length text ∧
  (∀ i c, text !! i = Some c →
          normalize_number text !! i = Some (if is_digit c then 48%N else c)) ∧
  Forall (fun c => is_digit c = true → c = 48%N) (normalize_number text) ∧
  normalize_number (normalize_number text) = normalize_number text.
Proof.
  unfold normalize_number. split; [by rewrite length_fmap|].
  split; [|split].
  - intros i c Hc. by rewrite list_lookup_fmap, Hc.
  - apply Forall_fmap, Forall_forall. intros c _. cbn.
    destruct (is_digit c) eqn:Hd; [done|]. congruence.
  - rewrite <-list_fmap_compose. apply list_fmap_ext. intros _ c _. cbn.
    destruct (is_digit c) eqn:Hd; [done|]. by rewrite Hd.
Qed.

(** ** Dictionaries: keys and values under assignment *)

Section dict_more.
Context {K V : Type} `{EqDecision K}.
Implicit Types (d : dict K V) (k : K) (v : V).

Lemma dict_set_is_Some d k k' v :
  is_Some (dict_get (dict_set d k v) k') ↔ k' = k ∨ is_Some (dict_get d k').
Proof.
  destruct (decide (k = k')) as [->|Hne].
  - rewrite dict_get_set_eq. split; [by left|by eexists].
  - rewrite dict_get_set_ne by done. split; [by right|].
    by intros [->|?].
Qed.

Lemma dict_set_length_ge d k v : (length d ≤ length (dict_set d k v))%nat.
Proof.
  destruct (dict_get d k) as [v'|] eqn:Hk.
  - rewrite dict_set_length_present; [done|by eexists].
  - rewrite dict_set_length_absent by done. lia.
Qed.

Lemma dict_set_values_Forall (P : V → Prop) d k v :
  Forall P d.*2 → P v → Forall P (dict_set d k v).*2.
Proof.
  intros Hd Hv. induction d as [|[k' v'] d IH]; cbn.
  - by repeat constructor.
  - cbn in Hd. apply Forall_cons in Hd as [Hv' Hd].
    destruct (decide (k = k')); cbn; apply Forall_cons; auto.
Qed.

Lemma dict_set_keys_NoDup d k v :
  NoDup (dict_keys d) → NoDup (dict_keys (dict_set d k v)).
Proof.
  unfold dict_keys. induction d as [|[k' v'] d IH]; cbn; intros Hnd.
  - apply NoDup_singleton.
  - apply NoDup_cons in Hnd as [Hk' Hnd].
    destruct (decide (k = k')) as [->|Hne]; cbn.
    + by apply NoDup_cons.
    + apply NoDup_cons. split; [|by apply IH].
      intros Hin. apply Hk'.
      clear -Hin Hne. induction d as [|[k0 v0] d IH]; cbn in *.
      * apply list_elem_of_singleton in Hin. congruence.
      * destruct (decide (k = k0)) as [->|]; cbn in *; [done|].
        apply elem_of_cons in Hin as [->|Hin]; [by left|right; by apply IH].
Qed.

Lemma dict_get_is_Some_keys d k : is_Some (dict_get d k) ↔ k ∈ dict_keys d.
Proof.
  unfold dict_keys. induction d as [|[k' v'] d IH]; cbn.
  - split; [by intros [? ?]|by intros ?%elem_of_nil].
  - rewrite elem_of_cons. destruct (decide (k = k')) as [->|Hne].
    + split; [by left|by eexists].
    + rewrite IH. split; [by right|by intros [?|?]].
Qed.

Lemma dict_get_Some_value d k v : dict_get d k = Some v → v ∈ d.*2.
Proof.
  induction d as [|[k' v'] d IH]; cbn; [done|].
  destruct (decide (k = k')).
  - intros [= ->]. by left.
  - intros Hk. right. by apply IH.
Qed.

Lemma dict_get_NoDup_elem d k v :
  NoDup (dict_keys d) → (k, v) ∈ d → dict_get d k = Some v.
Proof.
  unfold dict_keys. induction d as [|[k' v'] d IH]; cbn; intros Hnd Hin.
  - by apply elem_of_nil in Hin.
  - apply NoDup_cons in Hnd as [Hk' Hnd].
    apply elem_of_cons in Hin as [[= -> ->]|Hin]; [by rewrite decide_True|].
    rewrite decide_False; [by apply IH|].
    intros ->. apply Hk', list_elem_of_fmap. by exists (k', v).
Qed.
End dict_more.

(** ** What [fit] puts in the dictionaries *)

Section Vocabulary.
Variable str_lower : pystr → pystr.
Variable set_iter : list pystr → list pystr.

Lemma fit_word_config p w :
  _lowercase (fit_word str_lower p w) = _lowercase p ∧
  _num_norm (fit_word str_lower p w) = _num_norm p ∧
  _char_feature (fit_word str_lower p w) = _char_feature p ∧
  _vocab_init (fit_word str_lower p w) = _vocab_init p ∧
  label_dic (fit_word str_lower p w) = label_dic p.
Proof. unfold fit_word. by destruct (_char_feature p) eqn:Hcf. Qed.

Lemma fit_words_config ws p :
  _lowercase (fit_words str_lower ws p) = _lowercase p ∧
  _num_norm (fit_words str_lower ws p) = _num_norm p ∧
  _char_feature (fit_words str_lower ws p) = _char_feature p ∧
  _vocab_init (fit_words str_lower ws p) = _vocab_init p ∧
  label_dic (fit_words str_lower ws p) = label_dic p.
Proof.
  unfold fit_words. revert p.
  induction ws as [|w ws IH]; intros p; cbn; [done|].
  destruct (IH (fit_word str_lower p w)) as (-> & -> & -> & -> & ->).
  apply fit_word_config.
Qed.

Lemma fit_labels_config ts p :
  _lowercase (fit_labels ts p) = _lowercase p ∧
  _num_norm (fit_labels ts p) = _num_norm p ∧
  _char_feature (fit_labels ts p) = _char_feature p ∧
  _vocab_init (fit_labels ts p) = _vocab_init p ∧
  word_dic (fit_labels ts p) = word_dic p ∧
  char_dic (fit_labels ts p) = char_dic p.
Proof.
  unfold fit_labels. revert p.
  induction ts as [|t ts IH]; intros p; cbn; [done|].
  by destruct (IH (fit_label p t)) as (-> & -> & -> & -> & -> & ->).
Qed.

(** [fit], whether it returns or raises, leaves the object as the two
    loops that ran have made it. *)
Lemma fit_state X y p :
  (fit str_lower set_iter X y p).2 =
    let p1 := fit_words str_lower (set_iter (concat X ++ _vocab_init p)) p in
    match y with
    | Some y => fit_labels (set_iter (concat y)) p1
    | None => p1
    end.
Proof. unfold fit. by destruct y. Qed.

Lemma fit_word_word_dic p w :
  word_dic (fit_word str_lower p w) =
    dict_set (word_dic p) (normalize str_lower p w) (dict_len (word_dic p)).
Proof. unfold fit_word. by destruct (_char_feature p). Qed.

Lemma fit_word_char_dic p w :
  char_dic (fit_word str_lower p w) =
    if _char_feature p then fit_chars w (char_dic p) else char_dic p.
Proof. unfold fit_word. by destruct (_char_feature p). Qed.

Lemma normalize_fit_word p w w' :
  normalize str_lower (fit_word str_lower p w) w' = normalize str_lower p w'.
Proof.
  destruct (fit_word_config p w) as (Hlc & Hnn & _).
  by apply normalize_flags.
Qed.

Lemma fit_words_word_keys ws p k :
  is_Some (dict_get (word_dic (fit_words str_lower ws p)) k) ↔
  is_Some (dict_get (word_dic p) k) ∨
  ∃ w, w ∈ ws ∧ normalize str_lower p w = k.
Proof.
  unfold fit_words. revert p.
  induction ws as [|w ws IH]; intros p; cbn.
  - split; [by left|]. intros [?|(w & Hw & _)]; [done|].
    by apply elem_of_nil in Hw.
  - rewrite IH, fit_word_word_dic, dict_set_is_Some. split.
    + intros [[->|Hk]|(w' & Hw' & Hk)].
      * right. exists w. split; [by left|done].
      * by left.
      * right. exists w'. split; [by right|].
        by rewrite normalize_fit_word in Hk.
    + intros [Hk|(w' & [->|Hw']%elem_of_cons & Hk)].
      * left. by right.
      * left. by left.
      * right. exists w'. split; [done|]. by rewrite normalize_fit_word.
Qed.

Lemma fit_chars_keys w (cd : dict pystr Z) k :
  is_Some (dict_get (fit_chars w cd) k) ↔
  is_Some (dict_get cd k) ∨ ∃ c, c ∈ w ∧ k = [c].
Proof.
  unfold fit_chars. revert cd.
  induction w as [|c w IH]; intros cd; cbn.
  - split; [by left|]. intros [?|(c & Hc & _)]; [done|].
    by apply elem_of_nil in Hc.
  - rewrite IH.
    assert (Hstep :
      is_Some (dict_get (if dict_mem cd [c] then cd
                         else dict_set cd [c] (dict_len cd)) k) ↔
      k = [c] ∨ is_Some (dict_get cd k)).
    { destruct (dict_mem cd [c]) eqn:Hmem; [|apply dict_set_is_Some].
      apply dict_mem_true in Hmem. split; [by right|]. by intros [->|?]. }
    rewrite Hstep. split.
    + intros [[->|Hk]|(c' & Hc' & ->)].
      * right. exists c. split; [by left|done].
      * by left.
      * right. exists c'. split; [by right|done].
    + intros [Hk|(c' & [->|Hc']%elem_of_cons & ->)].
      * left. by right.
      * left. by left.
      * right. by exists c'.
Qed.

Lemma fit_words_char_keys ws p k :
  is_Some (dict_get (char_dic (fit_words str_lower ws p)) k) ↔
  is_Some (dict_get (char_dic p) k) ∨
  (_char_feature p = true ∧ ∃ w c, w ∈ ws ∧ c ∈ w ∧ k = [c]).
Proof.
  unfold fit_words. revert p.
  induction ws as [|w ws IH]; intros p; cbn.
  - split; [by left|]. intros [?|(_ & w & c & Hw & _)]; [done|].
    by apply elem_of_nil in Hw.
  - destruct (fit_word_config p w) as (_ & _ & Hcf & _).
    rewrite IH, Hcf, fit_word_char_dic.
    destruct (_char_feature p) eqn:Hp.
    + rewrite fit_chars_keys. split.
      * intros [[Hk|(c & Hc & ->)]|(_ & w' & c & Hw' & Hc & ->)].
        -- by left.
        -- right. split; [done|]. exists w, c. split; [by left|done].
        -- right. split; [done|]. exists w', c. split; [by right|done].
      * intros [Hk|(_ & w' & c & [->|Hw']%elem_of_cons & Hc & ->)].
        -- left. by left.
        -- left. right. by exists c.
        -- right. split; [done|]. by exists w', c.
    + split; [intros [?|[? _]]; [by left|done]|].
      intros [?|[? _]]; [by left|done].
Qed.

Lemma fit_words_char_vocab_ok ws p :
  vocab_ok (char_dic p) → vocab_ok (char_dic (fit_words str_lower ws p)).
Proof.
  unfold fit_words. revert p.
  induction ws as [|w ws IH]; intros p Hok; cbn; [done|].
  apply IH. rewrite fit_word_char_dic.
  destruct (_char_feature p); [by apply fit_chars_vocab_ok|done].
Qed.

Lemma fit_words_char_keeps ws p k i :
  dict_get (char_dic p) k = Some i →
  dict_get (char_dic (fit_words str_lower ws p)) k = Some i.
Proof.
  unfold fit_words. revert p.
  induction ws as [|w ws IH]; intros p Hk; cbn; [done|].
  apply IH. rewrite fit_word_char_dic.
  destruct (_char_feature p); [by apply fit_chars_keeps|done].
Qed.

Lemma fit_labels_keys ts p t :
  is_Some (dict_get (label_dic (fit_labels ts p)) t) ↔
  is_Some (dict_get (label_dic p) t) ∨ t ∈ ts.
Proof.
  unfold fit_labels. revert p.
  induction ts as [|t' ts IH]; intros p; cbn.
  - split; [by left|]. by intros [?|?%elem_of_nil].
  - rewrite IH. cbn. rewrite dict_set_is_Some, elem_of_cons. split.
    + intros [[->|?]|?]; [right; by left|by left|right; by right].
    + intros [?|[->|?]]; [left; by right|left; by left|by right].
Qed.

Lemma fit_labels_fresh_length ts p :
  NoDup ts → (∀ t, t ∈ ts → dict_get (label_dic p) t = None) →
  length (label_dic (fit_labels ts p)) = (length (label_dic p) + length ts)%nat.
Proof.
  unfold fit_labels. revert p.
  induction ts as [|t ts IH]; intros p Hnd Hnew; cbn; [lia|].
  apply NoDup_cons in Hnd as [Ht Hnd]. rewrite IH; [|done|].
  - cbn. rewrite dict_set_length_absent; [lia|]. apply Hnew. by left.
  - intros t' Ht'. cbn. rewrite dict_get_set_ne by (by intros ->).
    apply Hnew. by right.
Qed.

Hypothesis Hset : set_iter_ok set_iter.

(** X2: after [fit], whether it returned or raised for want of labels, the
    keys of the word dictionary are the keys it had before and the
    normalized forms of the words of the corpus and of [vocab_init], and
    nothing else. *)
Theorem fit_word_vocabulary (p : StaticPreprocessor) (X : list (list pystr))
    (y : option (list (list pystr))) (k : pystr) :
  is_Some (dict_get (word_dic (fit str_lower set_iter X y p).2) k) ↔
  is_Some (dict_get (word_dic p) k) ∨
  ∃ w, w ∈ concat X ++ _vocab_init p ∧ normalize str_lower p w = k.
Proof.
  rewrite fit_state. cbv zeta.
  assert (Hwords :
    is_Some (dict_get (word_dic (fit_words str_lower
                          (set_iter (concat X ++ _vocab_init p)) p)) k) ↔
    is_Some (dict_get (word_dic p) k) ∨
    ∃ w, w ∈ concat X ++ _vocab_init p ∧ normalize str_lower p w = k).
  { rewrite fit_words_word_keys.
    destruct (Hset (concat X ++ _vocab_init p)) as [_ Hin].
    split; (intros [?|(w & Hw & Hk)]; [by left|right; exists w]);
      (split; [by apply Hin|done]). }
  destruct y as [y|]; [|done].
  by destruct (fit_labels_config (set_iter (concat y))
                 (fit_words str_lower (set_iter (concat X ++ _vocab_init p)) p))
    as (_ & _ & _ & _ & -> & _).
Qed.

(** X3: after [fit] on a new preprocessor, the ids of the character
    dictionary are [0], [1], ... in the order of insertion, no key twice,
    [PAD] has the id [0] and [UNK] the id [1]; a character has an id exactly
    when [char_feature] is set and the character occurs in a word of the
    corpus or of [vocab_init]. *)
Theorem fit_char_vocabulary (lc nn cf : bool) (vi : list pystr)
    (X : list (list pystr)) (y : option (list (list pystr))) :
  let p := (fit str_lower set_iter X y (init lc nn cf vi)).2 in
  vocab_ok (char_dic p) ∧
  dict_get (char_dic p) PAD = Some 0 ∧
  dict_get (char_dic p) UNK = Some 1 ∧
  ∀ c, is_Some (dict_get (char_dic p) [c]) ↔
       cf = true ∧ ∃ w, w ∈ concat X ++ vi ∧ c ∈ w.
Proof.
  intros p.
  assert (Hchar : char_dic p =
    char_dic (fit_words str_lower (set_iter (concat X ++ vi))
                (init lc nn cf vi))).
  { unfold p. rewrite fit_state. cbv zeta. destruct y as [y|]; [|done].
    destruct (fit_labels_config (set_iter (concat y))
                (fit_words str_lower (set_iter (concat X ++ vi))
                   (init lc nn cf vi)))
      as (_ & _ & _ & _ & _ & Hc). exact Hc. }
  rewrite Hchar. split; [|split; [|split]].
  - apply fit_words_char_vocab_ok, (init_vocab_ok lc nn cf vi).
  - by apply fit_words_char_keeps.
  - by apply fit_words_char_keeps.
  - intros c. rewrite fit_words_char_keys. cbn -[PAD UNK].
    destruct (Hset (concat X ++ vi)) as [_ Hin]. split.
    + intros [Hres|(Hcf & w & c' & Hw & Hc & [= ->])].
      * exfalso. cbn in Hres. rewrite !decide_False in Hres;
          [by destruct Hres|..]; intros Heq;
          by apply (f_equal length) in Heq.
      * split; [done|]. exists w. split; [by apply Hin|done].
    + intros (Hcf & w & Hw & Hc). right. split; [done|].
      exists w, c. split; [by apply Hin|done].
Qed.

(** X4: after a [fit] that was given labels, on a new preprocessor, the
    keys of the label dictionary are [PAD] and the labels of the label
    corpus.  When ["<PAD>"] is not one of those labels, the ids are [0],
    [1], ... in the order of insertion, [PAD] keeps the id [0], every label
    has an id from [1] up, and the dictionary has one entry more than there
    are distinct labels. *)
Theorem fit_label_vocabulary (lc nn cf : bool) (vi : list pystr)
    (X y : list (list pystr)) :
  let p := (fit str_lower set_iter X (Some y) (init lc nn cf vi)).2 in
  (∀ t, is_Some (dict_get (label_dic p) t) ↔ t = PAD ∨ t ∈ concat y) ∧
  ((∀ sent, sent ∈ y → PAD ∉ sent) →
   vocab_ok (label_dic p) ∧
   dict_get (label_dic p) PAD = Some 0 ∧
   length (label_dic p) = S (length (remove_dups (concat y))) ∧
   ∀ t, t ∈ concat y →
        ∃ i, dict_get (label_dic p) t = Some i ∧ 1 ≤ i < dict_len (label_dic p)).
Proof.
  intros p. unfold p. rewrite fit_state. cbv zeta.
  set (p1 := fit_words str_lower _ (init lc nn cf vi)).
  set (ts := set_iter (concat y)).
  destruct (Hset (concat y)) as [Hnd Hts]. fold ts in Hnd, Hts.
  assert (Hl1 : label_dic p1 = [(PAD, 0)]).
  { destruct (fit_words_config (set_iter (concat X ++ vi))
                (init lc nn cf vi)) as (_ & _ & _ & _ & Hl). exact Hl. }
  split.
  - intros t. rewrite fit_labels_keys, Hl1, Hts. cbn -[PAD].
    destruct (decide (t = PAD)) as [->|Hne].
    + split; [by left|]. intros _. left. by eexists.
    + split; [intros [[? [=]]|?]; by right|]. intros [?|?]; [done|by right].
  - intros Hpad.
    assert (Hnew : ∀ t, t ∈ ts → dict_get (label_dic p1) t = None).
    { intros t Ht. rewrite Hl1. cbn -[PAD]. rewrite decide_False; [done|].
      intros ->. apply Hts, list_elem_of_In, in_concat in Ht
        as (sent & Hsent%list_elem_of_In & Ht%list_elem_of_In).
      by apply (Hpad sent). }
    destruct (fit_labels_fresh ts p1) as (Hok & Hkeep & Hin);
      [rewrite Hl1; apply (init_vocab_ok lc nn cf vi)|done|done|].
    assert (Hzero : dict_get (label_dic (fit_labels ts p1)) PAD = Some 0).
    { apply Hkeep. by rewrite Hl1. }
    split; [done|]. split; [done|]. split.
    + rewrite fit_labels_fresh_length, Hl1 by done. cbn. f_equal.
      pose proof (set_iter_permutations set_iter (concat y) Hset) as Hperm.
      apply permutations_Permutation in Hperm. by rewrite Hperm.
    + intros t Ht. destruct (Hin t) as [i Hi]; [by apply Hts|].
      exists i. split; [done|].
      pose proof (vocab_ok_id_lt _ _ _ Hok Hi) as Hlt.
      assert (i ≠ 0); [|lia]. intros ->.
      pose proof (vocab_ok_ids_NoDup _ Hok) as Hids.
      pose proof (dict_invert_get _ _ _ Hids (dict_get_Some_elem _ _ _ Hi)).
      pose proof (dict_invert_get _ _ _ Hids (dict_get_Some_elem _ _ _ Hzero)).
      assert (t = PAD) as -> by congruence.
      apply list_elem_of_In, in_concat in Ht
        as (sent & Hsent%list_elem_of_In & Ht%list_elem_of_In).
      by apply (Hpad sent).
Qed.
End Vocabulary.

(** ** What [fit] keeps, and what [transform] returns *)

Lemma dict_set_len_bounded {K} `{EqDecision K} (d : dict K Z) (k : K) :
  Forall (fun v => 0 ≤ v ≤ dict_len d) d.*2 →
  Forall (fun v => 0 ≤ v ≤ dict_len (dict_set d k (dict_len d)))
    (dict_set d k (dict_len d)).*2.
Proof.
  intros Hd. pose proof (dict_set_length_ge d k (dict_len d)) as Hle.
  apply dict_set_values_Forall; unfold dict_len in *; [|lia].
  eapply Forall_impl; [exact Hd|]. intros v Hv. cbn in Hv. lia.
Qed.

Lemma fit_chars_length_ge w (cd : dict pystr Z) :
  (length cd ≤ length (fit_chars w cd))%nat.
Proof.
  unfold fit_chars. revert cd.
  induction w as [|c w IH]; intros cd; cbn; [done|].
  etrans; [|apply IH]. destruct (dict_mem cd [c]); [done|].
  apply dict_set_length_ge.
Qed.

Section Encoding.
Variable str_lower : pystr → pystr.
Variable set_iter : list pystr → list pystr.

Lemma fit_words_word_bounded ws p :
  Forall (fun v => 0 ≤ v ≤ dict_len (word_dic p)) (word_dic p).*2 →
  Forall (fun v => 0 ≤ v ≤ dict_len (word_dic (fit_words str_lower ws p)))
    (word_dic (fit_words str_lower ws p)).*2.
Proof.
  unfold fit_words. revert p.
  induction ws as [|w ws IH]; intros p Hp; cbn; [done|].
  apply IH. rewrite fit_word_word_dic. by apply dict_set_len_bounded.
Qed.

Lemma fit_labels_label_bounded ts p :
  Forall (fun v => 0 ≤ v ≤ dict_len (label_dic p)) (label_dic p).*2 →
  Forall (fun v => 0 ≤ v ≤ dict_len (label_dic (fit_labels ts p)))
    (label_dic (fit_labels ts p)).*2.
Proof.
  unfold fit_labels. revert p.
  induction ts as [|t ts IH]; intros p Hp; cbn; [done|].
  apply IH. cbn. by apply dict_set_len_bounded.
Qed.

Lemma fit_words_lengths ws p :
  (length (word_dic p) ≤ length (word_dic (fit_words str_lower ws p)) ∧
   length (char_dic p) ≤ length (char_dic (fit_words str_lower ws p)))%nat.
Proof.
  unfold fit_words. revert p.
  induction ws as [|w ws IH]; intros p; cbn; [done|].
  destruct (IH (fit_word str_lower p w)) as [Hw Hc].
  rewrite fit_word_word_dic in Hw. rewrite fit_word_char_dic in Hc.
  pose proof (dict_set_length_ge (word_dic p) (normalize str_lower p w)
                (dict_len (word_dic p))).
  pose proof (fit_chars_length_ge w (char_dic p)).
  split; [lia|]. destruct (_char_feature p); lia.
Qed.

Lemma fit_labels_length ts p :
  (length (label_dic p) ≤ length (label_dic (fit_labels ts p)))%nat.
Proof.
  unfold fit_labels. revert p.
  induction ts as [|t ts IH]; intros p; cbn; [done|].
  etrans; [|apply IH]. cbn. apply dict_set_length_ge.
Qed.

(** The state after [fit], split into the part the word loop made and the
    part the label loop made. *)
Lemma fit_state_parts X y p :
  let p1 := fit_words str_lower (set_iter (concat X ++ _vocab_init p)) p in
  let p' := (fit str_lower set_iter X y p).2 in
  word_dic p' = word_dic p1 ∧ char_dic p' = char_dic p1 ∧
  label_dic p' =
    match y with
    | Some y => label_dic (fit_labels (set_iter (concat y)) p1)
    | None => label_dic p
    end ∧
  _lowercase p' = _lowercase p ∧ _num_norm p' = _num_norm p ∧
  _char_feature p' = _char_feature p ∧ _vocab_init p' = _vocab_init p.
Proof.
  intros p1 p'. unfold p'. rewrite fit_state. cbv zeta. fold p1.
  destruct (fit_words_config str_lower (set_iter (concat X ++ _vocab_init p)) p)
    as (Hlc & Hnn & Hcf & Hvi & Hl). fold p1 in Hlc, Hnn, Hcf, Hvi, Hl.
  destruct y as [y|]; [|done].
  destruct (fit_labels_config (set_iter (concat y)) p1)
    as (-> & -> & -> & -> & -> & ->). done.
Qed.

(** X5: on a preprocessor that [fit] has been called on, [transform]
    encodes a word as an id between [0] and [len(word_dic)], the upper bound
    included, and a character as an id from [0] up and below
    [len(char_dic)]; neither lookup raises.  Every id of the label
    dictionary is between [0] and [len(label_dic)], the bound included. *)
Theorem transform_ids_bounded (lc nn cf : bool) (vi : list pystr)
    (X0 : list (list pystr)) (y0 : option (list (list pystr))) (w : pystr) :
  let p := (fit str_lower set_iter X0 y0 (init lc nn cf vi)).2 in
  (∃ i, word_id str_lower p w = Ok i ∧ 0 ≤ i ≤ dict_len (word_dic p)) ∧
  (∃ cs, _get_char_ids p w = Ok cs ∧
         Forall (fun c => 0 ≤ c < dict_len (char_dic p)) cs) ∧
  ∀ t i, dict_get (label_dic p) t = Some i → 0 ≤ i ≤ dict_len (label_dic p).
Proof.
  cbv zeta. set (p0 := init lc nn cf vi).
  pose proof (fit_state_parts X0 y0 p0) as Hparts. cbv zeta in Hparts.
  set (p := (fit str_lower set_iter X0 y0 p0).2) in *.
  set (p1 := fit_words str_lower (set_iter (concat X0 ++ _vocab_init p0)) p0)
    in *.
  destruct Hparts as (Hw & Hc & Hl & _).
  assert (Hp : has_unk p) by apply fit_has_unk, init_has_unk.
  assert (Hwb : Forall (fun v => 0 ≤ v ≤ dict_len (word_dic p)) (word_dic p).*2).
  { rewrite Hw. apply fit_words_word_bounded. by repeat constructor. }
  assert (Hcok : vocab_ok (char_dic p)).
  { rewrite Hc. apply fit_words_char_vocab_ok, (init_vocab_ok lc nn cf vi). }
  split; [|split].
  - destruct (word_id_Ok str_lower p w Hp) as (unk & Hunk & ->).
    eexists. split; [done|]. unfold dict_get_default.
    eapply (proj1 (Forall_forall _ _) Hwb).
    destruct (dict_get (word_dic p) (normalize str_lower p w)) as [i|] eqn:Hi;
      cbn; by eapply dict_get_Some_value.
  - destruct (get_char_ids_Ok p w Hp) as (unk & Hunk & ->).
    eexists. split; [done|]. apply Forall_fmap, Forall_forall. intros c _.
    cbn. unfold dict_get_default.
    destruct (dict_get (char_dic p) [c]) as [i|] eqn:Hi; cbn;
      by eapply vocab_ok_id_lt.
  - intros t i Hi. apply dict_get_Some_value in Hi.
    assert (Hlb : Forall (fun v => 0 ≤ v ≤ dict_len (label_dic p))
                    (label_dic p).*2).
    { rewrite Hl. destruct y0 as [y0|]; [|by repeat constructor].
      apply fit_labels_label_bounded.
      pose proof (fit_words_config str_lower
                    (set_iter (concat X0 ++ _vocab_init p0)) p0)
        as (_ & _ & _ & _ & Hl1). fold p1 in Hl1. rewrite Hl1.
      by repeat constructor. }
    by eapply (proj1 (Forall_forall _ _) Hlb).
Qed.

(** X6: [fit] called without labels raises [TypeError], and so does
    [fit_transform]; the word loop has run by then, so that the object is
    left with its word and character dictionaries filled and its label
    dictionary as it was. *)
Theorem fit_without_labels (X : list (list pystr)) (p : StaticPreprocessor) :
  let p1 := fit_words str_lower (set_iter (concat X ++ _vocab_init p)) p in
  fit str_lower set_iter X None p = (Raise TypeError, p1) ∧
  fit_transform str_lower set_iter X None p = (Raise TypeError, p1) ∧
  label_dic p1 = label_dic p ∧
  ∀ w, w ∈ set_iter (concat X ++ _vocab_init p) →
       is_Some (dict_get (word_dic p1) (normalize str_lower p w)).
Proof.
  intros p1. split; [done|]. split; [done|]. split.
  - by destruct (fit_words_config str_lower
                   (set_iter (concat X ++ _vocab_init p)) p)
      as (_ & _ & _ & _ & ?).
  - intros w Hw. apply fit_words_word_keys. right. by exists w.
Qed.

(** [transform] without labels, on a preprocessor that [fit] has been
    called on, as two nested maps. *)
Lemma transform_of_fitted (lc nn cf : bool) (vi : list pystr)
    (X0 : list (list pystr)) (y0 : option (list (list pystr)))
    (X : list (list pystr)) :
  let p := (fit str_lower set_iter X0 y0 (init lc nn cf vi)).2 in
  ∃ unk,
    dict_get (word_dic p) UNK = Some unk ∧
    transform_of str_lower p X None =
      Ok (Inputs
            (EWords
               ((fun sent : list pystr =>
                   (fun w => dict_get_default (word_dic p)
                               (normalize str_lower p w) unk) <$> sent)
                  <$> X)
             :: if cf
                then [EChars
                        ((fun sent : list pystr =>
                            (fun w : pystr =>
                               (fun c => dict_get_default (char_dic p) [c] 1)
                                 <$> w) <$> sent) <$> X)]
                else [])).
Proof.
  cbv zeta. set (p0 := init lc nn cf vi).
  pose proof (fit_state_parts X0 y0 p0) as Hparts. cbv zeta in Hparts.
  set (p := (fit str_lower set_iter X0 y0 p0).2) in *.
  destruct Hparts as (_ & Hc & _ & _ & _ & Hcf & _).
  assert (Hp : has_unk p) by apply fit_has_unk, init_has_unk.
  assert (Hcu : dict_get (char_dic p) UNK = Some 1).
  { rewrite Hc. by apply fit_words_char_keeps. }
  destruct Hp as [[unk Hunk] _]. exists unk. split; [done|].
  set (f := fun w => dict_get_default (word_dic p) (normalize str_lower p w) unk).
  set (g := fun w : pystr =>
              (fun c => dict_get_default (char_dic p) [c] 1) <$> w).
  assert (Hword : ∀ w, transform_word str_lower p w =
                       Ok (f w, if cf then Some (g w) else None)).
  { intros w. unfold transform_word, word_id, _get_char_ids, dict_index.
    rewrite Hunk, Hcf. cbn [_char_feature init p0].
    rewrite (traverse_Ok _ (fun c => dict_get_default (char_dic p) [c] 1))
      by (intros; by rewrite Hcu).
    by destruct cf. }
  assert (Hsent : ∀ sent, transform_sent str_lower p sent =
                          Ok (f <$> sent, if cf then g <$> sent else [])).
  { intros sent. unfold transform_sent.
    rewrite (traverse_Ok _ (fun w => (f w, if cf then Some (g w) else None)))
      by done.
    cbn. do 2 f_equal; [by apply fmap_fst_fmap|].
    destruct cf; [by apply omap_id_Some|by apply omap_id_None]. }
  unfold transform_of.
  rewrite (traverse_Ok _
    (fun sent => (f <$> sent, if cf then g <$> sent else []))) by done.
  cbn. rewrite Hcf. cbn [_char_feature init p0].
  rewrite (fmap_fst_fmap _ (fun sent : list pystr => f <$> sent)) by done.
  destruct cf; [|done].
  by rewrite (fmap_snd_fmap _ (fun sent : list pystr => g <$> sent)).
Qed.

(** X7: on a preprocessor that [fit] has been called on, [transform]
    without labels never raises and encodes every sentence by itself: the
    word ids have the shape of the corpus, each the id of the normalized
    word or else the id of [UNK]; when [char_feature] is set the character
    ids have the shape of the corpus down to the characters, each the id of
    the character or else [1]. *)
Theorem transform_pointwise (lc nn cf : bool) (vi : list pystr)
    (X0 : list (list pystr)) (y0 : option (list (list pystr)))
    (X : list (list pystr)) :
  let p := (fit str_lower set_iter X0 y0 (init lc nn cf vi)).2 in
  ∃ unk,
    dict_get (word_dic p) UNK = Some unk ∧
    transform_of str_lower p X None =
      Ok (Inputs
            (EWords
               ((fun sent : list pystr =>
                   (fun w => dict_get_default (word_dic p)
                               (normalize str_lower p w) unk) <$> sent)
                  <$> X)
             :: if cf
                then [EChars
                        ((fun sent : list pystr =>
                            (fun w : pystr =>
                               (fun c => dict_get_default (char_dic p) [c] 1)
                                 <$> w) <$> sent) <$> X)]
                else [])).
Proof. apply transform_of_fitted. Qed.

(** X8: [fit], whether it returns or raises, removes no key from any of
    the three dictionaries and never changes the id of a character; no
    dictionary gets shorter, and the options given to the constructor are
    left as they were. *)
Theorem fit_keeps_entries (p : StaticPreprocessor) (X : list (list pystr))
    (y : option (list (list pystr))) :
  let p' := (fit str_lower set_iter X y p).2 in
  (∀ k, is_Some (dict_get (word_dic p) k) →
        is_Some (dict_get (word_dic p') k)) ∧
  (∀ k i, dict_get (char_dic p) k = Some i →
          dict_get (char_dic p') k = Some i) ∧
  (∀ t, is_Some (dict_get (label_dic p) t) →
        is_Some (dict_get (label_dic p') t)) ∧
  (length (word_dic p) ≤ length (word_dic p'))%nat ∧
  (length (char_dic p) ≤ length (char_dic p'))%nat ∧
  (length (label_dic p) ≤ length (label_dic p'))%nat ∧
  _lowercase p' = _lowercase p ∧ _num_norm p' = _num_norm p ∧
  _char_feature p' = _char_feature p ∧ _vocab_init p' = _vocab_init p.
Proof.
  cbv zeta.
  pose proof (fit_state_parts X y p) as Hparts. cbv zeta in Hparts.
  pose proof (fit_words_lengths (set_iter (concat X ++ _vocab_init p)) p)
    as [Hlw Hlc'].
  pose proof (fit_words_config str_lower
                (set_iter (concat X ++ _vocab_init p)) p)
    as (_ & _ & _ & _ & Hl1).
  set (p' := (fit str_lower set_iter X y p).2) in *.
  set (p1 := fit_words str_lower (set_iter (concat X ++ _vocab_init p)) p)
    in *.
  destruct Hparts as (Hw & Hc & Hl & Hlc & Hnn & Hcf & Hvi).
  rewrite Hw, Hc, Hl. repeat split; try done.
  - intros k Hk. apply fit_words_word_keys. by left.
  - intros k i Hk. by apply fit_words_char_keeps.
  - intros t Ht. destruct y as [y|]; [|done].
    apply fit_labels_keys. left. by rewrite Hl1.
  - destruct y as [y|]; [|done]. rewrite <-Hl1. apply fit_labels_length.
Qed.
End Encoding.

(** ** inverse_transform on any ids *)

Lemma dict_invert_fold_is_Some {K} (E : list (K * Z)) (m : dict Z K) v :
  is_Some (dict_get (fold_left (fun m '(k, v) => dict_set m v k) E m) v) ↔
  is_Some (dict_get m v) ∨ v ∈ E.*2.
Proof.
  revert m. induction E as [|[k' v'] E IH]; intros m; cbn.
  - split; [by left|]. by intros [?|?%elem_of_nil].
  - rewrite IH, dict_set_is_Some, elem_of_cons. split.
    + intros [[->|?]|?]; [right; by left|by left|right; by right].
    + intros [?|[->|?]]; [left; by right|left; by left|by right].
Qed.

Lemma dict_invert_fold_elem {K} (E : list (K * Z)) (m : dict Z K) v k :
  dict_get (fold_left (fun m '(k, v) => dict_set m v k) E m) v = Some k →
  (k, v) ∈ E ∨ dict_get m v = Some k.
Proof.
  revert m. induction E as [|[k' v'] E IH]; intros m; cbn; [by right|].
  intros [Hin|Hm]%IH; [left; by right|].
  destruct (decide (v' = v)) as [->|Hne].
  - rewrite dict_get_set_eq in Hm. injection Hm as ->. left. by left.
  - rewrite dict_get_set_ne in Hm by done. by right.
Qed.

(** An id is a key of the inverted dictionary exactly when it is an id of
    the dictionary, and the key it is mapped back to has that id. *)
Lemma dict_invert_spec {K} `{EqDecision K} (d : dict K Z) v :
  (is_Some (dict_get (dict_invert d) v) ↔ v ∈ d.*2) ∧
  ∀ k, dict_get (dict_invert d) v = Some k → (k, v) ∈ d.
Proof.
  unfold dict_invert, dict_items. split.
  - rewrite dict_invert_fold_is_Some. cbn. split; [|by right].
    by intros [[? [=]]|?].
  - intros k [?|[=]]%dict_invert_fold_elem. done.
Qed.

Lemma traverse_back {A B} (f : A → result B) (g : B → result A)
    (l : list A) (l' : list B) :
  (∀ a b, f a = Ok b → g b = Ok a) →
  traverse f l = Ok l' → traverse g l' = Ok l.
Proof.
  intros Hfg. revert l'. induction l as [|a l IH]; intros l'; cbn.
  - by intros [= <-].
  - destruct (f a) as [b|] eqn:Ha; cbn; [|done].
    destruct (traverse f l) as [bs|] eqn:Hl; cbn; [|done].
    intros [= <-]. cbn. by rewrite (Hfg a b Ha), (IH bs).
Qed.

Lemma traverse_index_total {K V} `{EqDecision K} (d : dict K V)
    (y : list (list K)) :
  (∀ sent t, sent ∈ y → t ∈ sent → is_Some (dict_get d t)) →
  ∃ ids, traverse (traverse (dict_index d)) y = Ok ids.
Proof.
  intros Hall.
  apply (traverse_Forall_Ok
           (fun sent => ∀ t, t ∈ sent → is_Some (dict_get d t))).
  - intros sent Hsent.
    apply (traverse_Forall_Ok (fun t => is_Some (dict_get d t))).
    + intros t [v Hv]. exists v. unfold dict_index. by rewrite Hv.
    + by apply Forall_forall.
  - apply Forall_forall. intros sent Hsent t Ht. by apply (Hall sent).
Qed.

Section Inverse.
Variable str_lower : pystr → pystr.
Variable set_iter : list pystr → list pystr.

Lemma fit_labels_keys_NoDup ts p :
  NoDup (dict_keys (label_dic p)) →
  NoDup (dict_keys (label_dic (fit_labels ts p))).
Proof.
  unfold fit_labels. revert p.
  induction ts as [|t ts IH]; intros p Hp; cbn; [done|].
  apply IH. cbn. by apply dict_set_keys_NoDup.
Qed.

(** X9: on a preprocessor that [fit] has been called on,
    [inverse_transform] raises [KeyError] as soon as one of the ids is not
    an id of the label dictionary, and returns labels when every id is one.
    The labels it returns are labels that have these ids: [transform] with
    them as the label corpus gives the ids back. *)
Theorem inverse_transform_decodes (lc nn cf : bool) (vi : list pystr)
    (X0 : list (list pystr)) (y0 : option (list (list pystr)))
    (docs : list (list Z)) :
  let p := (fit str_lower set_iter X0 y0 (init lc nn cf vi)).2 in
  ((∃ doc i, doc ∈ docs ∧ i ∈ doc ∧ i ∉ (label_dic p).*2) →
   inverse_transform p docs = Raise KeyError) ∧
  ((∀ doc i, doc ∈ docs → i ∈ doc → i ∈ (label_dic p).*2) →
   ∃ L, inverse_transform p docs = Ok L) ∧
  ∀ L, inverse_transform p docs = Ok L →
       ∀ X, ∃ inputs,
         transform_of str_lower p X (Some L) = Ok (InputsLabels inputs docs).
Proof.
  cbv zeta. set (p0 := init lc nn cf vi).
  pose proof (fit_state_parts str_lower set_iter X0 y0 p0) as Hparts.
  cbv zeta in Hparts.
  pose proof (fit_words_config str_lower
                (set_iter (concat X0 ++ _vocab_init p0)) p0)
    as (_ & _ & _ & _ & Hl1).
  set (p := (fit str_lower set_iter X0 y0 p0).2) in *.
  set (p1 := fit_words str_lower (set_iter (concat X0 ++ _vocab_init p0)) p0)
    in *.
  destruct Hparts as (_ & _ & Hl & _).
  assert (Hp : has_unk p) by apply fit_has_unk, init_has_unk.
  assert (Hkeys : NoDup (dict_keys (label_dic p))).
  { rewrite Hl. destruct y0 as [y0|]; [|apply NoDup_singleton].
    apply fit_labels_keys_NoDup. rewrite Hl1. apply NoDup_singleton. }
  unfold inverse_transform, id2label. split; [|split].
  - intros (doc & i & Hdoc & Hi & Hnot).
    apply (traverse_index_Raise _ _ doc i); [done..|].
    apply eq_None_not_Some. intros Hsome. apply Hnot.
    by apply (dict_invert_spec (label_dic p) i).
  - intros Hall. apply traverse_index_total. intros doc i Hdoc Hi.
    apply (dict_invert_spec (label_dic p) i). by apply (Hall doc).
  - intros L HL X.
    destruct (transform_sents_Ok str_lower p X Hp) as [ps Hps].
    assert (Hback : traverse (traverse (dict_index (label_dic p))) L = Ok docs).
    { eapply traverse_back; [|exact HL]. intros doc sent Hdoc.
      eapply traverse_back; [|exact Hdoc].
      intros i t Hi. unfold dict_index in *.
      destruct (dict_get (dict_invert (label_dic p)) i) as [t'|] eqn:Ht';
        [|done].
      injection Hi as ->.
      apply (dict_invert_spec (label_dic p) i) in Ht'.
      by rewrite (dict_get_NoDup_elem _ _ _ Hkeys Ht'). }
    eexists. unfold transform_of. rewrite Hps. cbn. by rewrite Hback.
Qed.
End Inverse.

(** ** Calling [fit] a second time *)

Section Refit.
Variable str_lower : pystr → pystr.
Variable set_iter : list pystr → list pystr.

(** Line 50 on words that are all in the dictionary: each of them is given
    the length of the dictionary, which stays as it is. *)
Lemma fit_words_present ws p k :
  (∀ w, w ∈ ws → is_Some (dict_get (word_dic p) (normalize str_lower p w))) →
  length (word_dic (fit_words str_lower ws p)) = length (word_dic p) ∧
  dict_get (word_dic (fit_words str_lower ws p)) k =
    if decide (k ∈ normalize str_lower p <$> ws)
    then Some (dict_len (word_dic p)) else dict_get (word_dic p) k.
Proof.
  unfold fit_words. revert p.
  induction ws as [|w ws IH]; intros p Hall; cbn.
  - split; [done|]. rewrite decide_False; [done|]. apply not_elem_of_nil.
  - assert (Hlen : length (word_dic (fit_word str_lower p w))
                   = length (word_dic p)).
    { rewrite fit_word_word_dic. apply dict_set_length_present, Hall.
      by left. }
    destruct (IH (fit_word str_lower p w)) as [IHlen IHget].
    { intros w' Hw'. rewrite normalize_fit_word, fit_word_word_dic.
      apply dict_get_set_is_Some, Hall. by right. }
    split; [by rewrite IHlen|]. rewrite IHget. unfold dict_len. rewrite Hlen.
    rewrite (list_fmap_ext (normalize str_lower (fit_word str_lower p w))
               (normalize str_lower p) ws)
      by (intros; apply normalize_fit_word).
    rewrite fit_word_word_dic.
    destruct (decide (k = normalize str_lower p w)) as [->|Hne].
    + rewrite dict_get_set_eq. rewrite (decide_True (P := _ ∈ _ :: _));
        [|by left].
      by destruct (decide (normalize str_lower p w
                             ∈ normalize str_lower p <$> ws)).
    + rewrite dict_get_set_ne by done.
      destruct (decide (k ∈ normalize str_lower p <$> ws)) as [Hin|Hnin].
      * by rewrite (decide_True (P := _ ∈ _ :: _)) by (by right).
      * rewrite decide_False; [done|]. by intros [?|?]%elem_of_cons.
Qed.

Lemma fit_labels_present ts p t :
  (∀ t, t ∈ ts → is_Some (dict_get (label_dic p) t)) →
  length (label_dic (fit_labels ts p)) = length (label_dic p) ∧
  dict_get (label_dic (fit_labels ts p)) t =
    if decide (t ∈ ts) then Some (dict_len (label_dic p))
    else dict_get (label_dic p) t.
Proof.
  unfold fit_labels. revert p.
  induction ts as [|t' ts IH]; intros p Hall; cbn.
  - split; [done|]. rewrite decide_False; [done|]. apply not_elem_of_nil.
  - assert (Hlen : length (label_dic (fit_label p t')) = length (label_dic p)).
    { cbn. apply dict_set_length_present, Hall. by left. }
    destruct (IH (fit_label p t')) as [IHlen IHget].
    { intros t'' Ht''. cbn. apply dict_get_set_is_Some, Hall. by right. }
    split; [by rewrite IHlen|]. rewrite IHget. unfold dict_len. rewrite Hlen.
    cbn [label_dic fit_label set_label_dic].
    destruct (decide (t = t')) as [->|Hne].
    + rewrite dict_get_set_eq. rewrite (decide_True (P := _ ∈ _ :: _));
        [|by left]. by destruct (decide (t' ∈ ts)).
    + rewrite dict_get_set_ne by done.
      destruct (decide (t ∈ ts)) as [Hin|Hnin].
      * by rewrite (decide_True (P := _ ∈ _ :: _)) by (by right).
      * rewrite decide_False; [done|]. by intros [?|?]%elem_of_cons.
Qed.

(** The character loop on a word whose characters all have an id changes
    nothing. *)
Lemma fit_chars_present w (cd : dict pystr Z) :
  (∀ c, c ∈ w → is_Some (dict_get cd [c])) → fit_chars w cd = cd.
Proof.
  unfold fit_chars. revert cd.
  induction w as [|c w IH]; intros cd Hall; cbn; [done|].
  rewrite (proj2 (dict_mem_true cd [c])) by (apply Hall; by left).
  apply IH. intros c' Hc'. apply Hall. by right.
Qed.

Lemma fit_words_chars_present ws p :
  (_char_feature p = true →
   ∀ w c, w ∈ ws → c ∈ w → is_Some (dict_get (char_dic p) [c])) →
  char_dic (fit_words str_lower ws p) = char_dic p.
Proof.
  unfold fit_words. revert p.
  induction ws as [|w ws IH]; intros p Hall; cbn; [done|].
  assert (Hstep : char_dic (fit_word str_lower p w) = char_dic p).
  { rewrite fit_word_char_dic. destruct (_char_feature p) eqn:Hcf; [|done].
    apply fit_chars_present. intros c Hc. apply (Hall eq_refl w); [by left|done]. }
  rewrite IH, Hstep; [done|].
  destruct (fit_word_config str_lower p w) as (_ & _ & Hcf & _).
  rewrite Hcf, Hstep. intros Ht w' c Hw' Hc. apply (Hall Ht w'); [by right|done].
Qed.

Hypothesis Hset : set_iter_ok set_iter.

(** X10: [fit] called a second time with the same corpus and labels does
    not give the ids of the first call back: the word dictionary keeps its
    length [n], and every word of the corpus and of [vocab_init] is given
    the one id [n]; likewise the label dictionary keeps its length [m], and
    every label is given the one id [m]. *)
Theorem refit_collapses_ids (p : StaticPreprocessor)
    (X y : list (list pystr)) :
  let p1 := (fit str_lower set_iter X (Some y) p).2 in
  let p2 := (fit str_lower set_iter X (Some y) p1).2 in
  dict_len (word_dic p2) = dict_len (word_dic p1) ∧
  (∀ w, w ∈ concat X ++ _vocab_init p →
        dict_get (word_dic p2) (normalize str_lower p w)
          = Some (dict_len (word_dic p1))) ∧
  dict_len (label_dic p2) = dict_len (label_dic p1) ∧
  ∀ t, t ∈ concat y →
       dict_get (label_dic p2) t = Some (dict_len (label_dic p1)).
Proof.
  cbv zeta.
  pose proof (fit_state_parts str_lower set_iter X (Some y) p) as Hparts1.
  cbv zeta in Hparts1.
  set (p1 := (fit str_lower set_iter X (Some y) p).2) in *.
  destruct Hparts1 as (Hw1 & _ & Hl1 & Hlc & Hnn & _ & Hvi).
  pose proof (fit_state_parts str_lower set_iter X (Some y) p1) as Hparts2.
  cbv zeta in Hparts2.
  set (p2 := (fit str_lower set_iter X (Some y) p1).2) in *.
  destruct Hparts2 as (Hw2 & _ & Hl2 & _).
  rewrite Hvi in Hw2, Hl2.
  set (ws := set_iter (concat X ++ _vocab_init p)) in *.
  set (ts := set_iter (concat y)) in *.
  destruct (Hset (concat X ++ _vocab_init p)) as [_ Hws]. fold ws in Hws.
  destruct (Hset (concat y)) as [_ Hts]. fold ts in Hts.
  assert (Hnorm : ∀ w, normalize str_lower p1 w = normalize str_lower p w)
    by (intros w; by apply normalize_flags).
  assert (Hpresent : ∀ w, w ∈ ws →
            is_Some (dict_get (word_dic p1) (normalize str_lower p1 w))).
  { intros w Hw. rewrite Hnorm, Hw1. apply fit_words_word_keys.
    right. by exists w. }
  assert (Hlpresent : ∀ t, t ∈ ts →
            is_Some (dict_get (label_dic (fit_words str_lower ws p1)) t)).
  { intros t Ht.
    destruct (fit_words_config str_lower ws p1) as (_ & _ & _ & _ & ->).
    rewrite Hl1. apply fit_labels_keys; [done..|]. by right. }
  assert (Hl21 : label_dic (fit_words str_lower ws p1) = label_dic p1)
    by apply (fit_words_config str_lower ws p1).
  unfold dict_len. rewrite Hw2, Hl2. repeat split.
  - by rewrite (proj1 (fit_words_present ws p1 [] Hpresent)).
  - intros w Hw%Hws.
    rewrite (proj2 (fit_words_present ws p1 _ Hpresent)).
    rewrite decide_True; [done|]. rewrite <-Hnorm.
    by apply list_elem_of_fmap_2.
  - rewrite (proj1 (fit_labels_present ts _ [] Hlpresent)). by rewrite Hl21.
  - intros t Ht%Hts.
    rewrite (proj2 (fit_labels_present ts _ t Hlpresent)).
    rewrite decide_True by done. unfold dict_len. by rewrite Hl21.
Qed.

(** X11: [fit] called a second time with the same corpus, with whatever
    labels or none, leaves the character dictionary of the first call as
    it is. *)
Theorem refit_keeps_char_dic (p : StaticPreprocessor) (X : list (list pystr))
    (y y' : option (list (list pystr))) :
  let p1 := (fit str_lower set_iter X y p).2 in
  char_dic (fit str_lower set_iter X y' p1).2 = char_dic p1.
Proof.
  cbv zeta.
  pose proof (fit_state_parts str_lower set_iter X y p) as Hparts1.
  cbv zeta in Hparts1.
  set (p1 := (fit str_lower set_iter X y p).2) in *.
  destruct Hparts1 as (_ & Hc1 & _ & _ & _ & Hcf & Hvi).
  pose proof (fit_state_parts str_lower set_iter X y' p1) as Hparts2.
  cbv zeta in Hparts2. destruct Hparts2 as (_ & Hc2 & _).
  rewrite Hc2, Hvi. apply fit_words_chars_present.
  intros Ht w c Hw Hc. rewrite Hc1. apply fit_words_char_keys.
  right. split; [by rewrite <-Hcf|]. by exists w, c.
Qed.
End Refit.

(** ** pad_nested_sequences on batches that need no padding *)

Lemma int32_range (z : Z) : - 2 ^ 31 ≤ int32 z < 2 ^ 31.
Proof.
  unfold int32. pose proof (Z.mod_pos_bound (z + 2 ^ 31) (2 ^ 32)). lia.
Qed.

Lemma max_list_const (l : list nat) (k x : nat) :
  (∀ n, n ∈ l → n = k) → x ∈ l → max_list l = k.
Proof.
  intros Hall Hx. apply Hall, max_list_elem_of. intros ->.
  by apply elem_of_nil in Hx.
Qed.

Lemma set_prefix_full (word : list Z) :
  Forall (fun c => - 2 ^ 31 ≤ c < 2 ^ 31) word →
  set_prefix word (replicate (length word) 0) = word.
Proof.
  intros Hrange. unfold set_prefix.
  rewrite drop_ge by (by rewrite length_replicate). rewrite app_nil_r.
  rewrite <-(list_fmap_id word) at 2. apply list_fmap_ext.
  intros i c Hc. apply int32_id. by eapply Forall_lookup_1 in Hrange.
Qed.

(** A batch in which every sentence has [m] words and every word [k]
    characters comes out of the two loops as it went in. *)
Lemma pad_nested_sequences_data_rectangular (sequences : list (list (list Z)))
    (m k : nat) :
  Forall (fun sent => length sent = m ∧ Forall (fun w => length w = k) sent)
    sequences →
  Forall (Forall (Forall (fun c => - 2 ^ 31 ≤ c < 2 ^ 31))) sequences →
  data3 (pad_nested_sequences sequences) = sequences.
Proof.
  intros Hrect Hrange. apply list_eq. intros i.
  rewrite pad_nested_sequences_row.
  destruct (sequences !! i) as [sent|] eqn:Hsent; [|done]. cbn. f_equal.
  pose proof (Forall_lookup_1 _ _ _ _ Hrect Hsent) as [Hm Hk].
  pose proof (Forall_lookup_1 _ _ _ _ Hrange Hsent) as Hr.
  assert (Hms : max_list (length <$> sequences) = m).
  { apply (max_list_const _ m (length sent)).
    - intros n (s & -> & Hs)%list_elem_of_fmap.
      by apply (proj1 (Forall_forall _ _) Hrect s).
    - apply list_elem_of_fmap_2. by eapply list_elem_of_lookup_2. }
  rewrite Hms. apply list_eq. intros j. rewrite fill_words_lookup.
  destruct (sent !! j) as [word|] eqn:Hword.
  - rewrite lookup_replicate_2 by (rewrite <-Hm; by eapply lookup_lt_Some).
    cbn. f_equal.
    assert (Hmw : max_list (length <$> concat sequences) = length word).
    { apply (max_list_const _ (length word) (length word)).
      - intros n (w & -> & Hw)%list_elem_of_fmap.
        apply list_elem_of_In, in_concat in Hw
          as (s & Hs%list_elem_of_In & Hw%list_elem_of_In).
        destruct (proj1 (Forall_forall _ _) Hrect s Hs) as [_ Hws].
        rewrite (proj1 (Forall_forall _ _) Hws w Hw).
        symmetry. by apply (Forall_lookup_1 _ _ _ _ Hk Hword).
      - apply list_elem_of_fmap_2, list_elem_of_In, in_concat. exists sent.
        split; apply list_elem_of_In; by eapply list_elem_of_lookup_2. }
    rewrite Hmw. apply set_prefix_full.
    by apply (Forall_lookup_1 _ _ _ _ Hr Hword).
  - apply lookup_replicate_None. rewrite <-Hm. by apply lookup_ge_None.
Qed.

(** X12: on a batch in which every sentence has the same number of words
    and every word the same number of character ids, the ids being [int32]
    values, [pad_nested_sequences] pads nothing: the cells of the array are
    the batch. *)
Theorem pad_nested_sequences_rectangular (sequences : list (list (list Z)))
    (m k : nat) :
  Forall (fun sent => length sent = m ∧ Forall (fun w => length w = k) sent)
    sequences →
  Forall (Forall (Forall (fun c => - 2 ^ 31 ≤ c < 2 ^ 31))) sequences →
  data3 (pad_nested_sequences sequences) = sequences ∧
  well_shaped (pad_nested_sequences sequences).
Proof.
  intros Hrect Hrange. split.
  - by apply (pad_nested_sequences_data_rectangular sequences m k).
  - apply pad_nested_sequences_well_shaped.
Qed.

Lemma pad_nested_sequences_in_range (sequences : list (list (list Z))) :
  Forall (Forall (Forall (fun c => - 2 ^ 31 ≤ c < 2 ^ 31)))
    (data3 (pad_nested_sequences sequences)).
Proof.
  pose proof (pad_nested_sequences_well_shaped sequences) as Hws.
  unfold well_shaped in Hws.
  assert (Hshape : shape3 (pad_nested_sequences sequences) =
                     (length sequences, max_list (length <$> sequences),
                      max_list (length <$> concat sequences)))
    by (by rewrite pad_nested_sequences_unfold).
  rewrite Hshape in Hws. destruct Hws as [Hn Hrows].
  apply Forall_lookup. intros i row Hrow.
  pose proof (Forall_lookup_1 _ _ _ _ Hrows Hrow) as [Hm Hcells].
  apply Forall_lookup. intros j cell Hcell.
  pose proof (Forall_lookup_1 _ _ _ _ Hcells Hcell) as Hk.
  apply Forall_lookup. intros l c Hc.
  pose proof (pad_nested_sequences_cell sequences i j l) as Hget.
  unfold get3 in Hget. rewrite Hrow in Hget. cbn in Hget.
  rewrite Hcell in Hget. cbn in Hget. rewrite Hc in Hget.
  apply lookup_lt_Some in Hrow, Hcell, Hc. cbn beta in Hm, Hk.
  injection Hget as ->; [|lia..].
  destruct (_ ≫= _) as [z|]; cbn; [apply int32_range|lia].
Qed.

(** X13: padding a padded batch changes nothing, whatever the batch:
    [pad_nested_sequences] applied to the cells of the array it returned
    returns that array, the shape included. *)
Theorem pad_nested_sequences_idempotent (sequences : list (list (list Z))) :
  pad_nested_sequences (data3 (pad_nested_sequences sequences)) =
  pad_nested_sequences sequences.
Proof.
  set (x := pad_nested_sequences sequences).
  pose proof (pad_nested_sequences_well_shaped sequences) as Hws.
  pose proof (pad_nested_sequences_in_range sequences) as Hrange.
  assert (Hshape : shape3 x =
                     (length sequences, max_list (length <$> sequences),
                      max_list (length <$> concat sequences)))
    by (unfold x; by rewrite pad_nested_sequences_unfold).
  fold x in Hws, Hrange. unfold well_shaped in Hws. rewrite Hshape in Hws.
  destruct Hws as [Hn Hrows].
  set (ms := max_list (length <$> sequences)) in *.
  set (mw := max_list (length <$> concat sequences)) in *.
  pose proof (pad_nested_sequences_data_rectangular (data3 x) ms mw
                Hrows Hrange) as Hdata.
  assert (Hshape' : shape3 (pad_nested_sequences (data3 x)) = shape3 x).
  { rewrite Hshape, pad_nested_sequences_unfold. cbn. rewrite Hn.
    destruct (data3 x) as [|row rows] eqn:Hd.
    { cbn in Hn. destruct sequences; [done|discriminate Hn]. }
    apply Forall_cons in Hrows as [[Hrow Hcells] Hrows].
    assert (Hms : max_list (length <$> row :: rows) = ms).
    { apply (max_list_const _ ms (length row)); [|by left].
      intros n (r & -> & [->|Hr]%elem_of_cons)%list_elem_of_fmap; [done|].
      by apply (proj1 (Forall_forall _ _) Hrows r). }
    rewrite Hms.
    assert (Hmw : max_list (length <$> concat (row :: rows)) = mw);
      [|by rewrite Hmw].
    destruct row as [|cell row].
    - (* no word in any sentence: no cell, and no word in the batch *)
      assert (Hnil : concat (([] : list (list Z)) :: rows) = []).
      { cbn. apply concat_nil_Forall, Forall_forall. intros r Hr.
        apply (proj1 (Forall_forall _ _) Hrows) in Hr as [Hr _].
        apply length_zero_iff_nil. by rewrite Hr, <-Hrow. }
      rewrite Hnil. cbn. unfold mw.
      assert (Hseqs : concat sequences = []); [|by rewrite Hseqs].
      apply concat_nil_Forall, Forall_forall. intros s Hs.
      apply length_zero_iff_nil.
      assert (length s ≤ ms)%nat; [|cbn in Hrow; lia].
      apply max_list_elem_of_le. by apply list_elem_of_fmap_2.
    - apply Forall_cons in Hcells as [Hcell Hcells].
      apply (max_list_const _ mw (length cell)); [|cbn; by left].
      intros n (c & -> & Hc)%list_elem_of_fmap.
      apply list_elem_of_In, in_concat in Hc
        as (r & Hr%list_elem_of_In & Hc%list_elem_of_In).
      apply elem_of_cons in Hr as [->|Hr].
      + apply elem_of_cons in Hc as [->|Hc]; [done|].
        by apply (proj1 (Forall_forall _ _) Hcells c).
      + apply (proj1 (Forall_forall _ _) Hrows) in Hr as [_ Hr].
        by apply (proj1 (Forall_forall _ _) Hr c). }
  destruct (pad_nested_sequences (data3 x)) as [sh d]. cbn in *.
  destruct x as [shx dx]. cbn in *. by subst.
Qed.

(** ** The two preprocessors in sequence *)



Section Pipeline.
Variable str_lower : pystr → pystr.
Variable set_iter : list pystr → list pystr.


Hypothesis Hset : set_iter_ok set_iter.

End Pipeline.

(** ** The further properties at concrete corpora

    ASCII case folding, the sets visited in the order of first occurrence. *)

(** X2 at the corpus [[["Hello", "42"]]] with [vocab_init = ["7"]]:
    ["00"], the normalized form of ["42"], is a key after [fit]. *)
Lemma fit_word_vocabulary_witness :
  let p := init true true true [py "7"] in
  is_Some (dict_get
             (word_dic (fit ascii_lower first_seen_order
                          [[py "Hello"; py "42"]] None p).2)
             (py "00")).
Proof.
  intros p.
  apply (fit_word_vocabulary ascii_lower first_seen_order first_seen_order_ok
           p [[py "Hello"; py "42"]] None (py "00")).
  right. exists (py "42"). split; [|reflexivity].
  apply list_elem_of_In. cbn. right. by left.
Defined.

(** X3 at the corpus [[["ab", "ba"]]]. *)
Lemma fit_char_vocabulary_witness :
  let p := (fit ascii_lower first_seen_order [[py "ab"; py "ba"]]
              (Some [[py "O"; py "O"]]) (init true true true [])).2 in
  vocab_ok (char_dic p) ∧
  dict_get (char_dic p) PAD = Some 0 ∧
  dict_get (char_dic p) UNK = Some 1 ∧
  ∀ c, is_Some (dict_get (char_dic p) [c]) ↔
       true = true ∧ ∃ w, w ∈ concat [[py "ab"; py "ba"]] ++ [] ∧ c ∈ w.
Proof.
  exact (fit_char_vocabulary ascii_lower first_seen_order first_seen_order_ok
           true true true [] [[py "ab"; py "ba"]] (Some [[py "O"; py "O"]])).
Defined.

(** X4 at the label corpus [[["O", "B"], ["O"]]]: two labels, three
    entries. *)
Lemma fit_label_vocabulary_witness :
  let p := (fit ascii_lower first_seen_order [[py "a"; py "b"]; [py "c"]]
              (Some [[py "O"; py "B"]; [py "O"]])
              (init true true true [])).2 in
  vocab_ok (label_dic p) ∧
  dict_get (label_dic p) PAD = Some 0 ∧
  length (label_dic p) = 3%nat.
Proof.
  intros p.
  destruct (fit_label_vocabulary ascii_lower first_seen_order
              first_seen_order_ok true true true []
              [[py "a"; py "b"]; [py "c"]] [[py "O"; py "B"]; [py "O"]])
    as [_ Hfresh].
  destruct Hfresh as (Hok & Hpad & Hlen & _).
  - apply Forall_forall.
    repeat first [apply Forall_nil_2 | apply Forall_cons_2];
      apply (bool_decide_unpack _); by vm_compute.
  - split; [exact Hok|]. split; [exact Hpad|exact Hlen].
Defined.

(** X10 at the corpus [[["a", "b"]]] with the labels [[["O", "B"]]]. *)
Lemma refit_collapses_ids_witness :
  let p := init true true true [] in
  let p1 := (fit ascii_lower first_seen_order [[py "a"; py "b"]]
               (Some [[py "O"; py "B"]]) p).2 in
  let p2 := (fit ascii_lower first_seen_order [[py "a"; py "b"]]
               (Some [[py "O"; py "B"]]) p1).2 in
  dict_len (word_dic p2) = dict_len (word_dic p1) ∧
  (∀ w, w ∈ concat [[py "a"; py "b"]] ++ _vocab_init p →
        dict_get (word_dic p2) (normalize ascii_lower p w)
          = Some (dict_len (word_dic p1))) ∧
  dict_len (label_dic p2) = dict_len (label_dic p1) ∧
  ∀ t, t ∈ concat [[py "O"; py "B"]] →
       dict_get (label_dic p2) t = Some (dict_len (label_dic p1)).
Proof.
  exact (refit_collapses_ids ascii_lower first_seen_order first_seen_order_ok
           (init true true true []) [[py "a"; py "b"]] [[py "O"; py "B"]]).
Defined.

(** X12 at a batch of two sentences of two words of two characters. *)
Lemma pad_nested_sequences_rectangular_witness :
  data3 (pad_nested_sequences [[[1; 2]; [3; 4]]; [[5; 6]; [7; 8]]]) =
    [[[1; 2]; [3; 4]]; [[5; 6]; [7; 8]]] ∧
  well_shaped (pad_nested_sequences [[[1; 2]; [3; 4]]; [[5; 6]; [7; 8]]]).
Proof.
  apply (pad_nested_sequences_rectangular _ 2 2).
  - repeat first [apply Forall_nil_2 | apply Forall_cons_2 | split]; done.
  - repeat first [apply Forall_nil_2 | apply Forall_cons_2]; lia.
Defined.


(** ** The reserved ids *)


Section Reserved.
Variable str_lower : pystr → pystr.
Variable set_iter : list pystr → list pystr.




Hypothesis Hset : set_iter_ok set_iter.

(** X17: [transform] never raises on the label corpus that [fit] was
    given, with whatever corpus of words: every label has an entry, and the
    label ids come back in the shape of the label corpus. *)
Theorem transform_fitted_labels (p0 : StaticPreprocessor)
    (X0 y X : list (list pystr)) :
  has_unk p0 →
  let p := (fit str_lower set_iter X0 (Some y) p0).2 in
  ∃ inputs ids,
    transform_of str_lower p X (Some y) = Ok (InputsLabels inputs ids) ∧
    length <$> ids = length <$> y.
Proof.
  intros Hp0. cbv zeta.
  pose proof (fit_state_parts str_lower set_iter X0 (Some y) p0) as Hparts.
  cbv zeta in Hparts.
  assert (Hp : has_unk (fit str_lower set_iter X0 (Some y) p0).2)
    by by apply fit_has_unk.
  set (p := (fit str_lower set_iter X0 (Some y) p0).2) in *.
  destruct Hparts as (_ & _ & Hl & _).
  destruct (Hset (concat y)) as [_ Hts].
  destruct (transform_sents_Ok str_lower p X Hp) as [ps Hps].
  clearbody p. unfold transform_of. rewrite Hps. cbn.
  rewrite (traverse_index_Ok _ _ 0).
  - cbn. eexists _, _. split; [done|].
    rewrite <-list_fmap_compose. apply list_fmap_ext. intros _ sent _. cbn.
    by rewrite length_fmap.
  - intros sent t Hsent Ht. rewrite Hl. apply fit_labels_keys; [done..|].
    right. apply Hts, list_elem_of_In, in_concat. exists sent.
    by split; apply list_elem_of_In.
Qed.
End Reserved.

(** X17 at the corpus [[["a", "b"]]] with the labels [[["<PAD>", "O"]]]. *)
Lemma transform_fitted_labels_witness :
  let p := (fit ascii_lower first_seen_order [[py "a"; py "b"]]
              (Some [[PAD; py "O"]]) (init true true true [])).2 in
  ∃ inputs ids,
    transform_of ascii_lower p [[py "c"]] (Some [[PAD; py "O"]])
      = Ok (InputsLabels inputs ids) ∧
    length <$> ids = length <$> [[PAD; py "O"]].
Proof.
  apply (transform_fitted_labels ascii_lower first_seen_order
           first_seen_order_ok (init true true true [])
           [[py "a"; py "b"]] [[PAD; py "O"]] [[py "c"]]).
  split; vm_compute; by eexists.
Defined.
